(** * GrayscaleConnectedComponent: the image container and the
      largest-connected-area scan of findLargestConnectedComponent.cpp

    The development embeds the C++ program shallowly:
    - [int] is a 32-bit two's complement integer, carried as [Z] with the
      wrap-around of every arithmetic operation written out ([wrap_int]);
    - [std::vector<int>] is a [list Z], indexed with stdpp's lookup and
      insert; an index outside the vector has no defined behaviour in C++
      and is reported as the failure [UndefinedBehavior];
    - C++ exceptions are the failures [InvalidArgument], [OutOfRange] and
      [LengthError];
    - the image passed by reference ([Image&]) is the state of a small state
      and failure monad [M]; a throw keeps the state reached so far;
    - the recursion of [CheckNextPixel] is bounded by a fuel argument,
      [OutOfFuel] meaning that the bound was too small. *)

From stdpp Require Import base decidable numbers option list sets gmap.

Local Open Scope Z_scope.

(** ** Machine integers *)

Definition INT_MIN : Z := - 2 ^ 31.
Definition INT_MAX : Z := 2 ^ 31 - 1.

Definition is_int (z : Z) : Prop := INT_MIN ≤ z ≤ INT_MAX.

(** Two's complement reduction to 32 bits. *)
Definition wrap_int (z : Z) : Z := (z + 2 ^ 31) `mod` 2 ^ 32 - 2 ^ 31.

Definition int_add (a b : Z) : Z := wrap_int (a + b).
Definition int_mul (a b : Z) : Z := wrap_int (a * b).

(** [static_cast<size_t>] on a 64-bit target. *)
Definition to_size_t (z : Z) : Z := z `mod` 2 ^ 64.

(** [std::vector<int>::max_size()] on a 64-bit target:
    [PTRDIFF_MAX / sizeof(int)]. *)
Definition vector_max_size : Z := 2 ^ 61 - 1.

(** ** Failures and results *)

Inductive failure : Type :=
  | InvalidArgument      (* std::invalid_argument *)
  | OutOfRange           (* std::out_of_range *)
  | LengthError          (* std::length_error, from std::vector *)
  | UndefinedBehavior.   (* unchecked index outside an array or vector *)

Inductive result (A : Type) : Type :=
  | Ok (a : A)
  | Err (e : failure).
Arguments Ok {A} a.
Arguments Err {A} e.

(** ** class Image *)

Record Image : Type := mkImage {
  rows_ : Z;
  cols_ : Z;
  data_ : list Z
}.

(** [Image(int rows, int cols)]: no check; the vector is built with
    [rows * cols] converted to [size_t], and [std::vector] itself refuses
    a size above [max_size()]. *)
Definition Image2 (rows cols : Z) : result Image :=
  let n := to_size_t (int_mul rows cols) in
  if decide (n > vector_max_size) then Err LengthError
  else Ok (mkImage rows cols (replicate (Z.to_nat n) 0)).

(** [Image(int rows, int cols, const std::vector<int>& initial_data)]. *)
Definition Image3 (rows cols : Z) (initial_data : list Z) : result Image :=
  let img := mkImage rows cols initial_data in
  if decide (Z.of_nat (length (data_ img))
             ≠ to_size_t (int_mul (rows_ img) (cols_ img)))
  then Err InvalidArgument
  else Ok img.

(** ** The state and failure monad of code working on an [Image&] *)

Inductive outcome (A : Type) : Type :=
  | Done (a : A) (img : Image)
  | Throw (e : failure) (img : Image)
  | OutOfFuel.
Arguments Done {A} a img.
Arguments Throw {A} e img.
Arguments OutOfFuel {A}.

Definition M (A : Type) : Type := Image → outcome A.

Definition ret {A} (a : A) : M A := fun img => Done a img.

Definition throw {A} (e : failure) : M A := fun img => Throw e img.

Definition out_of_fuel {A} : M A := fun _ => OutOfFuel.

Definition bind {A B} (m : M A) (f : A → M B) : M B :=
  fun img =>
    match m img with
    | Done a img' => f a img'
    | Throw e img' => Throw e img'
    | OutOfFuel => OutOfFuel
    end.

Notation "'let*' x := m 'in' k" := (bind m (fun x => k))
  (at level 10, x name, m at level 100, k at level 200, only parsing).
Notation "'do*' m 'in' k" := (bind m (fun _ => k))
  (at level 10, m at level 100, k at level 200, only parsing).

(** A counted [for] loop whose body threads the local variables [s]:
    [for (int i = ...; ...; ++i) body]. *)
Fixpoint for_each {X S} (l : list X) (body : X → S → M S) (s : S) : M S :=
  match l with
  | [] => ret s
  | i :: l' => let* s' := body i s in for_each l' body s'
  end.

(** The values taken by [i] in [for (int i = 0; i < n; ++i)]. *)
Definition int_range (n : Z) : list Z := seqZ 0 n.

(** ** Image::At

    [At] returns a reference [data_[row * cols_ + col]]; the reference is
    modelled by the index into [data_], converted to [size_t] as
    [operator[]] does.  Both overloads have the same body. *)
Definition At (row col : Z) : M Z := fun img =>
  if decide (row < 0 ∨ row >= rows_ img ∨ col < 0 ∨ col >= cols_ img)
  then Throw OutOfRange img
  else Done (to_size_t (int_add (int_mul row (cols_ img)) col)) img.

Definition At_const (row col : Z) : M Z := fun img =>
  if decide (row < 0 ∨ row >= rows_ img ∨ col < 0 ∨ col >= cols_ img)
  then Throw OutOfRange img
  else Done (to_size_t (int_add (int_mul row (cols_ img)) col)) img.

(** Reading through a reference into [data_]. *)
Definition load (ref : Z) : M Z := fun img =>
  match data_ img !! Z.to_nat ref with
  | Some x => Done x img
  | None => Throw UndefinedBehavior img
  end.

(** Assigning through a reference into [data_]. *)
Definition store (ref : Z) (v : Z) : M unit := fun img =>
  if decide (Z.to_nat ref < length (data_ img))%nat
  then Done tt (mkImage (rows_ img) (cols_ img)
                        (<[Z.to_nat ref := v]> (data_ img)))
  else Throw UndefinedBehavior img.

(** [x = img.At(row, col)] and [img.At(row, col) = v]. *)
Definition read_At (row col : Z) : M Z := let* ref := At row col in load ref.
Definition write_At (row col v : Z) : M unit :=
  let* ref := At row col in store ref v.
Definition read_At_const (row col : Z) : M Z :=
  let* ref := At_const row col in load ref.

(** ** CheckNextPixel *)

Definition dr : list Z := [-1; 1; 0; 0].
Definition dc : list Z := [0; 0; -1; 1].

Fixpoint CheckNextPixel (fuel : nat) (rows cols : Z)
    (curRow curCol currentPixel currentCount : Z) : M Z :=
  match fuel with
  | O => out_of_fuel
  | S fuel' =>
    let count := currentCount in
    for_each (int_range 4) (fun i count =>
      let nextRow := int_add curRow (dr !!! Z.to_nat i) in
      let nextCol := int_add curCol (dc !!! Z.to_nat i) in
      if decide (nextRow >= 0 ∧ nextRow < rows ∧ nextCol >= 0 ∧ nextCol < cols)
      then
        let* x := read_At nextRow nextCol in
        if decide (x = currentPixel) then
          do* write_At nextRow nextCol (-1) in
          let count := int_add count 1 in
          CheckNextPixel fuel' rows cols nextRow nextCol currentPixel count
        else ret count
      else ret count) count
  end.

(** ** FindLargestConnected *)

(** [int countForPixel[256] = {0}]: a raw array, indexed without check. *)
Definition countForPixel_init : list Z := replicate 256 0.

Definition array_get (a : list Z) (i : Z) : M Z :=
  if decide (0 ≤ i)
  then match a !! Z.to_nat i with
       | Some x => ret x
       | None => throw UndefinedBehavior
       end
  else throw UndefinedBehavior.

Definition array_set (a : list Z) (i v : Z) : M (list Z) :=
  if decide (0 ≤ i ∧ (Z.to_nat i < length a)%nat)
  then ret (<[Z.to_nat i := v]> a)
  else throw UndefinedBehavior.

(** The body of the two nested loops, at the cell [(row, col)]. *)
Definition scan_cell (fuel : nat) (rows cols row col : Z)
    (countForPixel : list Z) : M (list Z) :=
  let* currentPixel := read_At row col in
  if decide (currentPixel = -1) then ret countForPixel
  else
    let currentCount := 1 in
    do* write_At row col (-1) in
    let* currentCount := CheckNextPixel fuel rows cols row col
                                        currentPixel currentCount in
    let* old := array_get countForPixel currentPixel in
    if decide (currentCount > old)
    then array_set countForPixel currentPixel currentCount
    else ret countForPixel.

(** The last loop: the maximum of the 256 counters. *)
Definition max_count (countForPixel : list Z) : Z :=
  foldl (fun maxCount c => if decide (c > maxCount) then c else maxCount)
        0 countForPixel.

Definition scan (fuel : nat) (rows cols : Z) : M (list Z) :=
  for_each (int_range rows) (fun row countForPixel =>
    for_each (int_range cols) (fun col countForPixel =>
      scan_cell fuel rows cols row col countForPixel) countForPixel)
    countForPixel_init.

Definition FindLargestConnected (fuel : nat) (rows cols : Z) : M Z :=
  let* countForPixel := scan fuel rows cols in
  ret (max_count countForPixel).

(** The image of [main]. *)
Definition sample_data : list Z :=
  [ 1; 1; 2; 2; 3; 3;
    1; 1; 1; 2; 3; 3;
    4; 4; 1; 2; 2; 3;
    4; 4; 4; 5; 5; 5;
    4; 4; 4; 4; 5; 5 ].

Definition sample_image : Image := mkImage 5 6 sample_data.

(** ** Reference: 4-connected regions of equal-valued cells

    The reference works on an immutable grid, given by its dimensions and
    its row-major contents; a cell is a pair (row, column). *)

Abbreviation cell := (Z * Z)%type.

Definition in_grid (rows cols : Z) (p : cell) : Prop :=
  (0 ≤ p.1 ∧ p.1 < rows) ∧ (0 ≤ p.2 ∧ p.2 < cols).

Definition pixel (cols : Z) (data : list Z) (p : cell) : option Z :=
  data !! Z.to_nat (p.1 * cols + p.2).

(** Up, down, left, right. *)
Definition neighbours (p : cell) : list cell :=
  [(p.1 - 1, p.2); (p.1 + 1, p.2); (p.1, p.2 - 1); (p.1, p.2 + 1)].

(** Every cell of the grid, in row-major order. *)
Definition all_cells (rows cols : Z) : list cell :=
  r ← seqZ 0 rows; c ← seqZ 0 cols; [(r, c)].

(** [connected rows cols data v p q]: [q] is reached from [p] by moving
    between 4-adjacent cells of the grid, entering only cells of value [v]. *)
Inductive connected (rows cols : Z) (data : list Z) (v : Z) (p : cell)
  : cell → Prop :=
  | connected_refl : connected rows cols data v p p
  | connected_step q q' :
      connected rows cols data v p q →
      q' ∈ neighbours q →
      in_grid rows cols q' →
      pixel cols data q' = Some v →
      connected rows cols data v p q'.

(** [is_region rows cols data p D]: [D] is the 4-connected region of the
    cell [p], the set of the cells connected to [p] through cells of the
    value of [p]. *)
Definition is_region (rows cols : Z) (data : list Z) (p : cell)
    (D : gset cell) : Prop :=
  ∃ v, pixel cols data p = Some v ∧
       ∀ q, q ∈ D ↔ connected rows cols data v p q.

(** The reference flood fill: one round adds to a set of cells every cell of
    value [v] that has a neighbour in the set; the region of a seed is what
    is reached after as many rounds as the grid has cells. *)
Definition grow (rows cols : Z) (data : list Z) (v : Z) (S : gset cell)
  : gset cell :=
  S ∪ list_to_set
        (filter (λ q, pixel cols data q = Some v
                      ∧ Exists (λ p, p ∈ S) (neighbours q))
                (all_cells rows cols)).

Definition rounds (rows cols : Z) (data : list Z) (v : Z) (seed : cell)
    (k : nat) : gset cell :=
  Nat.iter k (grow rows cols data v) {[seed]}.

Definition region (rows cols : Z) (data : list Z) (v : Z) (seed : cell)
  : gset cell :=
  rounds rows cols data v seed (length (all_cells rows cols)).

Definition region_size (rows cols : Z) (data : list Z) (seed : cell) : Z :=
  match pixel cols data seed with
  | Some v => Z.of_nat (size (region rows cols data v seed))
  | None => 0
  end.

(** The largest region over the seeds [seeds], 0 when there is none. *)
Definition largest_over (rows cols : Z) (data : list Z) (seeds : list cell)
  : Z :=
  foldr Z.max 0 (region_size rows cols data <$> seeds).

(** The largest 4-connected region of equal-valued cells of the grid. *)
Definition largest_region (rows cols : Z) (data : list Z) : Z :=
  largest_over rows cols data (all_cells rows cols).

(** The same, over the cells that do not hold the visited marker -1. *)
Definition largest_unmarked_region (rows cols : Z) (data : list Z) : Z :=
  largest_over rows cols data
    (filter (λ q, pixel cols data q ≠ Some (-1)) (all_cells rows cols)).

(** A grid as the program receives it: an image whose dimensions are the
    [rows] and [cols] handed to [FindLargestConnected], whose vector holds
    [rows * cols] cells, [rows * cols] being an [int]. *)
Record grid (rows cols : Z) (img : Image) : Prop := mkGrid {
  grid_rows : rows_ img = rows;
  grid_cols : cols_ img = cols;
  grid_rows_nonneg : 0 ≤ rows;
  grid_cols_nonneg : 0 ≤ cols;
  grid_size : Z.of_nat (length (data_ img)) = rows * cols;
  grid_int : rows * cols ≤ INT_MAX
}.

(** ** Predicates of the correctness proof *)

(** The outcome of [m] from [img] satisfies [Q] when it returns, [E] when it
    throws, and [F] when the fuel runs out. *)
Definition wp {A} (m : M A) (img : Image) (Q : A → Image → Prop)
    (E : failure → Image → Prop) (F : Prop) : Prop :=
  match m img with
  | Done a img' => Q a img'
  | Throw e img' => E e img'
  | OutOfFuel => F
  end.

(** [m] returns from [img], with a value and a state that satisfy [Q]. *)
Definition returns {A} (m : M A) (img : Image) (Q : A → Image → Prop) : Prop :=
  wp m img Q (λ _ _, False) False.

(** The cells of the grid that hold [v]. *)
Definition cells_of (rows cols : Z) (data : list Z) (v : Z) : gset cell :=
  list_to_set (filter (λ q, pixel cols data q = Some v) (all_cells rows cols)).

(** No neighbour of [q] holds [v]. *)
Definition sealed (rows cols : Z) (data : list Z) (v : Z) (q : cell) : Prop :=
  ∀ q', q' ∈ neighbours q → in_grid rows cols q' → pixel cols data q' ≠ Some v.

(** From [data] to [data'] the only change is that cells holding [v] were
    marked with -1. *)
Definition marks (rows cols : Z) (v : Z) (data data' : list Z) : Prop :=
  length data' = length data
  ∧ ∀ q, in_grid rows cols q →
      pixel cols data' q = pixel cols data q
      ∨ (pixel cols data q = Some v ∧ pixel cols data' q = Some (-1)).

(** What a traversal from [cur] has done when it went from [data] and the
    count [count] to [data'] and [count']: it marked cells of value [v],
    counted each of them once, reached each of them from [cur], and left no
    cell of value [v] next to any of them. *)
Record flooded (rows cols : Z) (v : Z) (cur : cell)
    (data : list Z) (count : Z) (data' : list Z) (count' : Z) : Prop :=
  mkFlooded {
    flooded_marks : marks rows cols v data data';
    flooded_count :
      count' = count + Z.of_nat (size (cells_of rows cols data v))
               - Z.of_nat (size (cells_of rows cols data' v));
    flooded_connected :
      ∀ q, q ∈ cells_of rows cols data v → q ∉ cells_of rows cols data' v →
           connected rows cols data v cur q;
    flooded_sealed :
      ∀ q, q ∈ cells_of rows cols data v → q ∉ cells_of rows cols data' v →
           sealed rows cols data' v q
  }.

(** The neighbour of [cur] in the direction [i] of [dr] and [dc]. *)
Definition neighbour (cur : cell) (i : Z) : cell :=
  (cur.1 + dr !!! Z.to_nat i, cur.2 + dc !!! Z.to_nat i).

(** The body of the loop of [CheckNextPixel], the recursive call being the
    one on [fuel']. *)
Definition check_neighbour (fuel' : nat) (rows cols : Z)
    (curRow curCol currentPixel : Z) (i count : Z) : M Z :=
  let nextRow := int_add curRow (dr !!! Z.to_nat i) in
  let nextCol := int_add curCol (dc !!! Z.to_nat i) in
  if decide (nextRow >= 0 ∧ nextRow < rows ∧ nextCol >= 0 ∧ nextCol < cols)
  then
    let* x := read_At nextRow nextCol in
    if decide (x = currentPixel) then
      do* write_At nextRow nextCol (-1) in
      let count := int_add count 1 in
      CheckNextPixel fuel' rows cols nextRow nextCol currentPixel count
    else ret count
  else ret count.

(** What a call of [CheckNextPixel] at [cur] achieves. *)
Definition traversed (rows cols : Z) (v : Z) (cur : cell) (data : list Z)
    (count : Z) (count' : Z) (img' : Image) : Prop :=
  ∃ data', img' = mkImage rows cols data'
           ∧ flooded rows cols v cur data count data' count'
           ∧ sealed rows cols data' v cur.

(** The precondition of a call: the count cannot overflow and the fuel
    covers the cells that still hold [v]. *)
Definition may_traverse (rows cols : Z) (v : Z) (fuel : nat) (cur : cell)
    (data : list Z) (count : Z) : Prop :=
  Z.of_nat (length data) = rows * cols
  ∧ in_grid rows cols cur
  ∧ INT_MIN ≤ count
  ∧ count + Z.of_nat (size (cells_of rows cols data v)) ≤ INT_MAX
  ∧ (size (cells_of rows cols data v) < fuel)%nat.

(** The pixel values the scan is written for: 0 to 255, and the marker -1
    of a cell already counted. *)
Definition pixel_value (x : Z) : Prop := x = -1 ∨ 0 ≤ x ≤ 255.

(** The invariant of the scan of the grid [g], when the cells [seen] have
    been handled: the state is [data] and the counters are [countForPixel].
    A cell holds its value of [g] or the marker; the marked cells form whole
    regions of [g], each of them counted in the counter of its value; every
    counter that is not 0 is the size of a region; the cells handled are
    marked. *)
Record scanned (rows cols : Z) (g : list Z) (seen : list cell)
    (countForPixel : list Z) (data : list Z) : Prop := mkScanned {
  scanned_length : length data = length g;
  scanned_counters : length countForPixel = 256%nat;
  scanned_pixels :
    ∀ q, in_grid rows cols q →
         pixel cols data q = pixel cols g q ∨ pixel cols data q = Some (-1);
  scanned_whole :
    ∀ q q' w, in_grid rows cols q → pixel cols data q = Some (-1) →
      pixel cols g q = Some w → w ≠ -1 →
      q' ∈ neighbours q → in_grid rows cols q' → pixel cols g q' = Some w →
      pixel cols data q' = Some (-1);
  scanned_bound :
    ∀ q w D, in_grid rows cols q → pixel cols data q = Some (-1) →
      pixel cols g q = Some w → w ≠ -1 → is_region rows cols g q D →
      ∃ c, countForPixel !! Z.to_nat w = Some c ∧ Z.of_nat (size D) ≤ c;
  scanned_attained :
    ∀ i c, countForPixel !! i = Some c →
      c = 0 ∨ ∃ q D, in_grid rows cols q ∧ pixel cols g q ≠ Some (-1)
                     ∧ is_region rows cols g q D ∧ c = Z.of_nat (size D);
  scanned_seen :
    ∀ q, q ∈ seen → in_grid rows cols q → pixel cols data q = Some (-1)
}.

(** The state in which a run ends, if it ends. *)
Definition final_state {A} (o : outcome A) : option Image :=
  match o with
  | Done _ img' => Some img'
  | Throw _ img' => Some img'
  | OutOfFuel => None
  end.

(** From [img] to [img'] every cell either kept its value or was set to -1;
    in particular a cell that held -1 still holds -1. *)
Definition only_marked (img img' : Image) : Prop :=
  rows_ img' = rows_ img
  ∧ cols_ img' = cols_ img
  ∧ length (data_ img') = length (data_ img)
  ∧ ∀ i x, data_ img !! i = Some x →
           data_ img' !! i = Some x ∨ data_ img' !! i = Some (-1).

(** What holds when code started in [img] throws [e] in [img']: cells were
    only marked, and OutOfRange is thrown only when the dimensions [rows]
    and [cols] the code works with exceed those of the image. *)
Definition guarded (rows cols : Z) (img : Image) (e : failure)
    (img' : Image) : Prop :=
  only_marked img img'
  ∧ (e = OutOfRange → ¬ (rows ≤ rows_ img ∧ cols ≤ cols_ img)).

(** The cells marked between [data] and [data']. *)
Definition newly_marked (rows cols : Z) (data data' : list Z) : gset cell :=
  cells_of rows cols data' (-1) ∖ cells_of rows cols data (-1).

(** From [data] to [data'] the vector kept its length and every cell of the
    grid that held the marker still holds it. *)
Definition kept (rows cols : Z) (data data' : list Z) : Prop :=
  length data' = length data
  ∧ ∀ q, in_grid rows cols q → pixel cols data q = Some (-1) →
         pixel cols data' q = Some (-1).

(** A run that ends without failure, in a grid that kept its marked
    cells. *)
Definition keeps (rows cols : Z) (data : list Z) {A} (m : M A)
    (img : Image) : Prop :=
  wp m img (λ _ img', ∃ data', img' = mkImage rows cols data'
                               ∧ kept rows cols data data')
     (λ _ _, False) True.

(** * Properties *)

(** ** The sample image of [main] *)

Example sample_constructed : Image3 5 6 sample_data = Ok sample_image.
Proof. reflexivity. Qed.

Example sample_run :
  FindLargestConnected 31 5 6 sample_image
  = Done 9 (mkImage 5 6 (replicate 30 (-1))).
Proof. vm_compute. reflexivity. Qed.

Example sample_reference : largest_region 5 6 sample_data = 9.
Proof. vm_compute. reflexivity. Qed.

(** The region of value 4 of the sample image has 9 cells, the regions of
    the values 1, 2, 3 and 5 have 6, 5, 5 and 5. *)
Example sample_regions :
  region_size 5 6 sample_data <$> [(2, 0); (0, 0); (0, 2); (0, 4); (3, 3)]
  = [9; 6; 5; 5; 5].
Proof. vm_compute. reflexivity. Qed.

(** ** Machine arithmetic within range *)

Lemma wrap_int_id z : is_int z → wrap_int z = z.
Proof.
  unfold is_int, INT_MIN, INT_MAX, wrap_int. intros Hz.
  rewrite Z.mod_small; lia.
Qed.

Lemma to_size_t_nonneg z : 0 ≤ z → z < 2 ^ 64 → to_size_t z = z.
Proof. intros. unfold to_size_t. rewrite Z.mod_small; lia. Qed.

Lemma to_size_t_neg z : - 2 ^ 64 ≤ z → z < 0 → to_size_t z = z + 2 ^ 64.
Proof.
  intros. unfold to_size_t.
  rewrite <- (Z.mod_add z 1 (2 ^ 64)) by lia.
  rewrite Z.mod_small; lia.
Qed.

(** ** The constructors *)




(** C7, as the code has it: the two-argument constructor checks no sign and
    never fails with InvalidArgument, whatever the dimensions.  When
    [rows * cols] is an [int], a non-negative product gives an image of
    that many zero cells, with the dimensions as given, and a negative
    product is refused by the vector with a length error. *)
Theorem Image2_no_sign_check (rows cols : Z) :
  Image2 rows cols ≠ Err InvalidArgument
  ∧ (is_int (rows * cols) → 0 ≤ rows * cols →
     Image2 rows cols
     = Ok (mkImage rows cols (replicate (Z.to_nat (rows * cols)) 0)))
  ∧ (is_int (rows * cols) → rows * cols < 0 →
     Image2 rows cols = Err LengthError).
Proof.
  split_and!.
  - unfold Image2. by case_decide.
  - intros Hint Hpos. unfold Image2, int_mul. rewrite (wrap_int_id _ Hint).
    unfold is_int, INT_MIN, INT_MAX, vector_max_size in *.
    rewrite to_size_t_nonneg by lia. case_decide; [lia|done].
  - intros Hint Hneg. unfold Image2, int_mul. rewrite (wrap_int_id _ Hint).
    unfold is_int, INT_MIN, INT_MAX, vector_max_size in *.
    rewrite to_size_t_neg by lia. case_decide; [done|lia].
Qed.

Lemma Image2_no_sign_check_witness :
  (Image2 (-2) (-3) ≠ Err InvalidArgument
   ∧ Image2 (-2) (-3)
     = Ok (mkImage (-2) (-3) (replicate (Z.to_nat (-2 * -3)) 0)))
  ∧ (Image2 (-2) 3 ≠ Err InvalidArgument
     ∧ Image2 (-2) 3 = Err LengthError).
Proof.
  split.
  - destruct (Image2_no_sign_check (-2) (-3)) as (Hnever & Hpos & _).
    split; [exact Hnever|].
    apply Hpos; unfold is_int, INT_MIN, INT_MAX; lia.
  - destruct (Image2_no_sign_check (-2) 3) as (Hnever & _ & Hneg).
    split; [exact Hnever|].
    apply Hneg; unfold is_int, INT_MIN, INT_MAX; lia.
Defined.

(** C7 as stated fails: with two negative dimensions the constructor
    succeeds, and gives an image of one cell. *)
Lemma Image2_negative_counterexample :
  ¬ (∀ rows cols, rows < 0 ∨ cols < 0 →
       Image2 rows cols = Err InvalidArgument).
Proof.
  intros H. specialize (H (-1) (-1)).
  assert (Image2 (-1) (-1) = Ok (mkImage (-1) (-1) [0])) as Heq
    by (vm_compute; reflexivity).
  rewrite Heq in H. discriminate H. lia.
Qed.

(** An image built from non-negative dimensions whose product is an [int]
    is a grid for these dimensions. *)
Lemma Image3_grid rows cols initial_data img :
  0 ≤ rows → 0 ≤ cols → rows * cols ≤ INT_MAX →
  Image3 rows cols initial_data = Ok img → grid rows cols img.
Proof.
  intros Hrows Hcols Hint. unfold Image3, int_mul. cbn [rows_ cols_ data_].
  assert (0 ≤ rows * cols) by nia.
  rewrite wrap_int_id by (unfold is_int, INT_MIN, INT_MAX in *; lia).
  rewrite to_size_t_nonneg by (unfold INT_MAX in *; lia).
  case_decide as Hlen; [done|]. intros [= <-].
  split; cbn [rows_ cols_ data_]; [done..| |done].
  destruct (decide (Z.of_nat (length initial_data) = rows * cols)); done.
Qed.

Lemma Image2_grid rows cols img :
  0 ≤ rows → 0 ≤ cols → rows * cols ≤ INT_MAX →
  Image2 rows cols = Ok img → grid rows cols img.
Proof.
  intros Hrows Hcols Hint. unfold Image2, int_mul.
  assert (0 ≤ rows * cols) by nia.
  rewrite wrap_int_id by (unfold is_int, INT_MIN, INT_MAX in *; lia).
  rewrite to_size_t_nonneg by (unfold INT_MAX in *; lia).
  case_decide; [done|]. intros [= <-].
  split; cbn [rows_ cols_ data_]; [done..| |done].
  rewrite length_replicate. lia.
Qed.

(** Where the product of the dimensions overflows [int], which C++ leaves
    undefined: with the wrap-around of this model the product is 0 and an
    empty vector is accepted. *)
Example Image3_overflow :
  Image3 65536 65536 [] = Ok (mkImage 65536 65536 []).
Proof. reflexivity. Qed.

(** ** Image::At *)

(** C6. With [row] outside [0, rows_) or [col] outside [0, cols_), both
    overloads of [At] throw OutOfRange, so does a read or a write through
    them, and the image is left as it was. *)
Theorem At_out_of_range (img : Image) (row col v : Z) :
  ¬ (0 ≤ row < rows_ img) ∨ ¬ (0 ≤ col < cols_ img) →
  At row col img = Throw OutOfRange img
  ∧ At_const row col img = Throw OutOfRange img
  ∧ read_At row col img = Throw OutOfRange img
  ∧ read_At_const row col img = Throw OutOfRange img
  ∧ write_At row col v img = Throw OutOfRange img.
Proof.
  intros Hout.
  assert (At row col img = Throw OutOfRange img) as HAt.
  { unfold At. case_decide; [done|lia]. }
  assert (At_const row col img = Throw OutOfRange img) as HAtc.
  { unfold At_const. case_decide; [done|lia]. }
  unfold read_At, read_At_const, write_At, bind.
  rewrite HAt, HAtc. done.
Qed.

Lemma At_out_of_range_witness :
  let img := mkImage 2 3 [1; 2; 3; 4; 5; 6] in
  At 2 0 img = Throw OutOfRange img
  ∧ At_const 2 0 img = Throw OutOfRange img
  ∧ read_At 2 0 img = Throw OutOfRange img
  ∧ read_At_const 2 0 img = Throw OutOfRange img
  ∧ write_At 2 0 7 img = Throw OutOfRange img.
Proof.
  intros img. apply (At_out_of_range img 2 0 7).
  left. simpl. lia.
Defined.

(** ** The empty grid *)

Lemma for_each_skip {X S} (l : list X) (s : S) img :
  for_each l (λ _ s, ret s) s img = Done s img.
Proof. induction l as [|x l IH]; [done|]. cbn [for_each]. apply IH. Qed.

Lemma max_count_init : max_count countForPixel_init = 0.
Proof. vm_compute. reflexivity. Qed.

(** Without rows or without columns no cell is scanned: the counters stay
    at 0 and the image is untouched. *)
Lemma FindLargestConnected_no_cells fuel rows cols img :
  rows ≤ 0 ∨ cols ≤ 0 → FindLargestConnected fuel rows cols img = Done 0 img.
Proof.
  intros Hnone. unfold FindLargestConnected, scan, bind, int_range.
  destruct Hnone as [Hrows|Hcols].
  - rewrite (seqZ_nil 0 rows Hrows). cbn [for_each]. unfold ret.
    by rewrite max_count_init.
  - rewrite (seqZ_nil 0 cols Hcols). cbn [for_each].
    rewrite for_each_skip. unfold ret. by rewrite max_count_init.
Qed.

(** C4. On the empty grid, of 0 rows and 0 columns, [FindLargestConnected]
    returns 0, whatever the image and the fuel, and leaves the image as it
    was. *)
Theorem FindLargestConnected_empty (fuel : nat) (img : Image) :
  FindLargestConnected fuel 0 0 img = Done 0 img.
Proof. apply FindLargestConnected_no_cells. left. lia. Qed.

Example empty_image_constructed :
  Image3 0 0 [] = Ok (mkImage 0 0 []) ∧ Image2 0 0 = Ok (mkImage 0 0 []).
Proof. split; reflexivity. Qed.

(** ** Rules for the monad *)

Lemma wp_ret {A} (a : A) img Q E F : Q a img → wp (ret a) img Q E F.
Proof. done. Qed.

Lemma wp_throw {A} e img (Q : A → Image → Prop) E F :
  E e img → wp (throw e) img Q E F.
Proof. done. Qed.

Lemma wp_bind {A B} (m : M A) (f : A → M B) img Q E F :
  wp m img (λ a img', wp (f a) img' Q E F) E F → wp (bind m f) img Q E F.
Proof. unfold wp, bind. by destruct (m img). Qed.

Lemma wp_mono {A} (m : M A) img (Q Q' : A → Image → Prop)
    (E E' : failure → Image → Prop) (F F' : Prop) :
  wp m img Q E F →
  (∀ a img', Q a img' → Q' a img') →
  (∀ e img', E e img' → E' e img') →
  (F → F') →
  wp m img Q' E' F'.
Proof. unfold wp. destruct (m img); eauto. Qed.

Lemma wp_done {A} (m : M A) img a img' (Q : A → Image → Prop) E F :
  m img = Done a img' → Q a img' → wp m img Q E F.
Proof. unfold wp. by intros ->. Qed.

Lemma returns_inv {A} (m : M A) img Q :
  returns m img Q → ∃ a img', m img = Done a img' ∧ Q a img'.
Proof. unfold returns, wp. destruct (m img); naive_solver. Qed.

(** A loop establishes an invariant [I] of the elements already handled. *)
Lemma wp_for_each {X S} (I : list X → S → Image → Prop)
    (l : list X) (body : X → S → M S) s img E F :
  I [] s img →
  (∀ seen x rest s img,
     l = seen ++ x :: rest → I seen s img →
     wp (body x s) img (λ s' img', I (seen ++ [x]) s' img') E F) →
  wp (for_each l body s) img (λ s' img', I l s' img') E F.
Proof.
  intros Hinit Hstep.
  cut (∀ rest seen s img, l = seen ++ rest → I seen s img →
         wp (for_each rest body s) img (λ s' img', I l s' img') E F).
  { intros Hcut. by apply (Hcut l []). }
  clear s img Hinit. intros rest.
  induction rest as [|x rest IH]; intros seen s img Hl HI.
  - rewrite app_nil_r in Hl. subst seen. by apply wp_ret.
  - cbn [for_each]. apply wp_bind.
    eapply wp_mono; [by eapply Hstep| |done|done].
    cbn beta. intros s' img' HI'. apply (IH (seen ++ [x])); [|done].
    by rewrite <- app_assoc.
Qed.

Lemma returns_ret {A} (a : A) img (Q : A → Image → Prop) :
  Q a img → returns (ret a) img Q.
Proof. done. Qed.

Lemma returns_done {A} (m : M A) img a img' (Q : A → Image → Prop) :
  m img = Done a img' → Q a img' → returns m img Q.
Proof. apply wp_done. Qed.

Lemma returns_bind {A B} (m : M A) (f : A → M B) img Q :
  returns m img (λ a img', returns (f a) img' Q) → returns (bind m f) img Q.
Proof. apply wp_bind. Qed.

Lemma returns_mono {A} (m : M A) img (Q Q' : A → Image → Prop) :
  returns m img Q → (∀ a img', Q a img' → Q' a img') → returns m img Q'.
Proof. intros H HQ. by apply (wp_mono _ _ _ _ _ _ _ _ H). Qed.

Lemma returns_for_each {X S} (I : list X → S → Image → Prop)
    (l : list X) (body : X → S → M S) s img :
  I [] s img →
  (∀ seen x rest s img,
     l = seen ++ x :: rest → I seen s img →
     returns (body x s) img (λ s' img', I (seen ++ [x]) s' img')) →
  returns (for_each l body s) img (λ s' img', I l s' img').
Proof. apply wp_for_each. Qed.

Lemma for_each_app {X S} (l1 l2 : list X) (body : X → S → M S) s img :
  for_each (l1 ++ l2) body s img
  = bind (for_each l1 body s) (for_each l2 body) img.
Proof.
  revert s img. induction l1 as [|x l1 IH]; intros s img; [done|].
  cbn [app for_each]. unfold bind.
  destruct (body x s img) as [s' img'| |]; [|done..].
  rewrite IH. done.
Qed.

(** The two nested loops of the scan visit the cells in row-major order. *)
Lemma for_each_nested {S} rows cols (body : Z → Z → S → M S) s img :
  for_each (int_range rows) (λ row s,
    for_each (int_range cols) (λ col s, body row col s) s) s img
  = for_each (all_cells rows cols) (λ q s, body q.1 q.2 s) s img.
Proof.
  unfold all_cells, int_range.
  generalize (seqZ 0 rows) as lr. intros lr. revert s img.
  induction lr as [|r lr IH]; intros s img; [reflexivity|].
  cbn [for_each mbind list_bind]. rewrite for_each_app.
  unfold bind at 1 2.
  assert (∀ lc s img, for_each lc (λ col s, body r col s) s img
            = for_each (lc ≫= λ c, [(r, c)]) (λ q s, body q.1 q.2 s) s img)
    as ->.
  { clear. intros lc. induction lc as [|c lc IH]; intros s img; [reflexivity|].
    cbn [for_each mbind list_bind app fst snd]. unfold bind.
    destruct (body r c s img); [|done..]. apply IH. }
  destruct (for_each _ _ s img); [|done..]. apply IH.
Qed.

(** ** The grid *)

Lemma elem_of_all_cells rows cols q :
  q ∈ all_cells rows cols ↔ in_grid rows cols q.
Proof.
  unfold all_cells, in_grid. destruct q as [r c]. set_unfold. split.
  - intros (r' & (c' & [= -> ->] & Hc) & Hr). cbn. lia.
  - cbn. intros [Hr Hc]. exists r. split; [|lia]. exists c. split; [done|lia].
Qed.

Lemma NoDup_all_cells rows cols : NoDup (all_cells rows cols).
Proof.
  unfold all_cells. apply NoDup_bind; [| |apply NoDup_seqZ].
  - intros r1 r2 q _ _. set_unfold. by intros (? & -> & _) (? & [= -> _] & _).
  - intros r _. apply NoDup_bind; [| |apply NoDup_seqZ].
    + intros c1 c2 q _ _. set_unfold. by intros [->|[]] [[= ->]|[]].
    + intros c _. apply NoDup_singleton.
Qed.

Lemma elem_of_cells_of rows cols data v q :
  q ∈ cells_of rows cols data v
  ↔ in_grid rows cols q ∧ pixel cols data q = Some v.
Proof.
  unfold cells_of.
  rewrite elem_of_list_to_set, list_elem_of_filter, elem_of_all_cells.
  tauto.
Qed.

Lemma length_all_cells rows cols :
  length (all_cells rows cols) = (Z.to_nat rows * Z.to_nat cols)%nat.
Proof.
  unfold all_cells. rewrite <- (length_seqZ 0 rows), <- (length_seqZ 0 cols).
  generalize (seqZ 0 rows) as lr, (seqZ 0 cols) as lc. intros lr lc.
  induction lr as [|r lr IH]; [done|].
  cbn [mbind list_bind]. rewrite List.length_app.
  rewrite IH. cbn [length Nat.mul]. f_equal.
  clear. induction lc as [|c lc IH]; [done|].
  cbn [mbind list_bind app length]. by rewrite IH.
Qed.

Lemma size_cells_of_le rows cols data v :
  0 ≤ rows → 0 ≤ cols →
  Z.of_nat (size (cells_of rows cols data v)) ≤ rows * cols.
Proof.
  intros Hrows Hcols. unfold cells_of.
  rewrite size_list_to_set by apply NoDup_filter, NoDup_all_cells.
  pose proof (length_filter (λ q, pixel cols data q = Some v)
                (all_cells rows cols)) as Hle.
  rewrite length_all_cells in Hle. nia.
Qed.

(** ** Regions *)

Lemma neighbours_sym p q : q ∈ neighbours p → p ∈ neighbours q.
Proof.
  destruct p as [r c], q as [r' c']. unfold neighbours. cbn [fst snd].
  rewrite !elem_of_cons, !elem_of_nil.
  intros [[= -> ->]|[[= -> ->]|[[= -> ->]|[[= -> ->]|[]]]]].
  - right; left. f_equal; lia.
  - left. f_equal; lia.
  - do 3 right; left. f_equal; lia.
  - do 2 right; left. f_equal; lia.
Qed.

(** Evaluate the entries of [dr] and [dc]. *)
Ltac eval_dir :=
  repeat match goal with
  | |- context [?l !!! Z.to_nat ?i] =>
      let x := eval vm_compute in (l !!! Z.to_nat i) in
      change (l !!! Z.to_nat i) with x
  end.

Lemma elem_of_neighbours cur q :
  q ∈ neighbours cur ↔ ∃ i, i ∈ int_range 4 ∧ q = neighbour cur i.
Proof.
  unfold neighbours, int_range. split.
  - rewrite !elem_of_cons, elem_of_nil.
    intros [->|[->|[->|[->|[]]]]];
      [exists 0|exists 1|exists 2|exists 3];
      (split; [set_solver by lia|]); unfold neighbour; eval_dir; f_equal; lia.
  - intros (i & Hi & ->). apply elem_of_seqZ in Hi.
    assert (i = 0 ∨ i = 1 ∨ i = 2 ∨ i = 3) as Hcase by lia. clear Hi.
    destruct Hcase as [-> | [-> | [-> | ->]]];
      unfold neighbour; eval_dir; rewrite ?Z.add_0_r; set_solver.
Qed.

Section regions.
Context (rows cols : Z).

Lemma connected_trans data v p q r :
  connected rows cols data v p q → connected rows cols data v q r →
  connected rows cols data v p r.
Proof.
  intros Hpq Hqr. induction Hqr as [|r r' _ IH Hadj Hin Hv]; [done|].
  by eapply connected_step.
Qed.

Lemma connected_one data v p q :
  q ∈ neighbours p → in_grid rows cols q → pixel cols data q = Some v →
  connected rows cols data v p q.
Proof. intros. eapply connected_step; [apply connected_refl|done..]. Qed.

(** A region only grows when more cells hold [v]. *)
Lemma connected_mono data data' v p q :
  (∀ x, in_grid rows cols x → pixel cols data x = Some v →
        pixel cols data' x = Some v) →
  connected rows cols data v p q → connected rows cols data' v p q.
Proof.
  intros Hsub Hpq. induction Hpq as [|q q' _ IH Hadj Hin Hv].
  - apply connected_refl.
  - eapply connected_step; eauto.
Qed.

(** Every cell of the region of a cell of value [v] holds [v]. *)
Lemma connected_value data v p q :
  in_grid rows cols p → pixel cols data p = Some v →
  connected rows cols data v p q →
  in_grid rows cols q ∧ pixel cols data q = Some v.
Proof. intros Hin Hv Hpq. by destruct Hpq. Qed.

Lemma connected_sym data v p q :
  in_grid rows cols p → pixel cols data p = Some v →
  connected rows cols data v p q → connected rows cols data v q p.
Proof.
  intros Hin Hv Hpq. induction Hpq as [|q q' Hpq IH Hadj Hin' Hv'].
  - apply connected_refl.
  - destruct (connected_value _ _ _ _ Hin Hv Hpq) as [Hq Hvq].
    eapply connected_trans; [|done].
    apply connected_one; [by apply neighbours_sym|done..].
Qed.

(** Two cells of one region have the same region. *)
Lemma connected_same_region data v p q x :
  in_grid rows cols p → pixel cols data p = Some v →
  connected rows cols data v p q →
  connected rows cols data v q x ↔ connected rows cols data v p x.
Proof.
  intros Hin Hv Hpq. split; intros H.
  - by eapply connected_trans.
  - eapply connected_trans; [|done]. by apply connected_sym.
Qed.

(** A region is determined by its cell. *)
Lemma is_region_unique data p D D' :
  is_region rows cols data p D → is_region rows cols data p D' → D = D'.
Proof.
  intros (v & Hv & HD) (v' & Hv' & HD'). simplify_eq.
  apply set_eq. intros q. by rewrite HD, HD'.
Qed.

Lemma is_region_same data v p q D :
  in_grid rows cols p → pixel cols data p = Some v →
  connected rows cols data v p q →
  is_region rows cols data p D → is_region rows cols data q D.
Proof.
  intros Hin Hv Hpq (v' & Hv' & HD). simplify_eq.
  destruct (connected_value _ _ _ _ Hin Hv Hpq) as [Hq Hvq].
  exists v. split; [done|]. intros x.
  rewrite HD. symmetry. by apply connected_same_region.
Qed.
End regions.

(** ** Cell access on a grid *)

(** The lemmas of a section all take the assumptions of the section. *)
#[local] Set Default Proof Using "All".

Section grid_access.
Context (rows cols : Z).
Context (Hrows : 0 ≤ rows) (Hcols : 0 ≤ cols).
Context (Hint : rows * cols ≤ INT_MAX).

Lemma index_bounds q :
  in_grid rows cols q → 0 ≤ q.1 * cols + q.2 < rows * cols.
Proof. unfold in_grid. destruct q as [r c]. cbn. nia. Qed.

Lemma index_inj p q :
  in_grid rows cols p → in_grid rows cols q →
  p.1 * cols + p.2 = q.1 * cols + q.2 → p = q.
Proof.
  unfold in_grid. destruct p as [r c], q as [r' c']. cbn.
  intros Hp Hq Heq.
  assert (r = r') as -> by nia.
  f_equal. lia.
Qed.

Lemma At_index r c :
  in_grid rows cols (r, c) →
  to_size_t (int_add (int_mul r cols) c) = r * cols + c.
Proof.
  intros Hin. pose proof (index_bounds _ Hin) as Hb. cbn in Hb.
  unfold in_grid in Hin. cbn in Hin.
  unfold INT_MAX in Hint.
  assert (0 ≤ r * cols ≤ rows * cols) by nia.
  unfold int_add, int_mul.
  rewrite (wrap_int_id (r * cols))
    by (unfold is_int, INT_MIN, INT_MAX; lia).
  rewrite wrap_int_id by (unfold is_int, INT_MIN, INT_MAX; lia).
  apply to_size_t_nonneg; lia.
Qed.

Lemma At_grid data r c :
  in_grid rows cols (r, c) →
  At r c (mkImage rows cols data)
  = Done (r * cols + c) (mkImage rows cols data).
Proof.
  intros Hin. unfold At. cbn [rows_ cols_].
  rewrite At_index by done.
  unfold in_grid in Hin. cbn in Hin. case_decide; [lia|done].
Qed.

Lemma pixel_is_Some data q :
  Z.of_nat (length data) = rows * cols → in_grid rows cols q →
  is_Some (pixel cols data q).
Proof.
  intros Hlen Hin. pose proof (index_bounds _ Hin).
  unfold pixel. apply lookup_lt_is_Some. lia.
Qed.

Lemma read_At_grid data r c x :
  in_grid rows cols (r, c) → pixel cols data (r, c) = Some x →
  read_At r c (mkImage rows cols data) = Done x (mkImage rows cols data).
Proof.
  intros Hin Hx. unfold read_At, bind. rewrite At_grid by done.
  unfold load. cbn [data_]. unfold pixel in Hx. cbn in Hx. by rewrite Hx.
Qed.

Lemma write_At_grid data r c v :
  Z.of_nat (length data) = rows * cols → in_grid rows cols (r, c) →
  write_At r c v (mkImage rows cols data)
  = Done tt (mkImage rows cols (<[Z.to_nat (r * cols + c) := v]> data)).
Proof.
  intros Hlen Hin. unfold write_At, bind. rewrite At_grid by done.
  pose proof (index_bounds _ Hin) as Hb. cbn in Hb.
  unfold store. cbn [data_ rows_ cols_]. case_decide; [done|lia].
Qed.

Lemma pixel_insert data p q v :
  Z.of_nat (length data) = rows * cols →
  in_grid rows cols p → in_grid rows cols q →
  pixel cols (<[Z.to_nat (p.1 * cols + p.2) := v]> data) q
  = if decide (q = p) then Some v else pixel cols data q.
Proof.
  intros Hlen Hp Hq. unfold pixel.
  pose proof (index_bounds _ Hp). pose proof (index_bounds _ Hq).
  case_decide as Heq.
  - subst q. apply list_lookup_insert_eq. lia.
  - apply list_lookup_insert_ne. intros Hidx. apply Heq.
    symmetry. apply index_inj; [done..|lia].
Qed.
End grid_access.

(** ** Marking cells of one value *)

Section marking.
Context (rows cols : Z).
Context (Hrows : 0 ≤ rows) (Hcols : 0 ≤ cols).
Context (Hint : rows * cols ≤ INT_MAX).
Context (v : Z) (Hv : v ≠ -1).

Lemma marks_refl data : marks rows cols v data data.
Proof. split; [done|]. by left. Qed.

Lemma marks_trans data1 data2 data3 :
  marks rows cols v data1 data2 → marks rows cols v data2 data3 →
  marks rows cols v data1 data3.
Proof.
  intros [Hlen12 H12] [Hlen23 H23]. split; [congruence|].
  intros q Hq.
  destruct (H12 q Hq) as [H1|[H1 H1']], (H23 q Hq) as [H2|[H2 H2']].
  - left. congruence.
  - right. split; congruence.
  - right. split; congruence.
  - congruence.
Qed.

Lemma marks_keeps_other data data' q :
  marks rows cols v data data' → in_grid rows cols q →
  pixel cols data q ≠ Some v → pixel cols data' q ≠ Some v.
Proof.
  intros [_ Hm] Hq Hne. destruct (Hm q Hq) as [H|[H H']]; congruence.
Qed.

Lemma marks_cells_of data data' :
  marks rows cols v data data' →
  cells_of rows cols data' v ⊆ cells_of rows cols data v.
Proof.
  intros Hm q. rewrite !elem_of_cells_of. intros [Hq Hpix].
  split; [done|].
  destruct (decide (pixel cols data q = Some v)) as [|Hne]; [done|].
  by destruct (marks_keeps_other _ _ _ Hm Hq Hne).
Qed.

Lemma sealed_mono data data' q :
  marks rows cols v data data' →
  sealed rows cols data v q → sealed rows cols data' v q.
Proof.
  intros Hm Hs q' Hadj Hq'. eapply marks_keeps_other; [done..|].
  by apply Hs.
Qed.

Lemma marks_insert data q :
  Z.of_nat (length data) = rows * cols → in_grid rows cols q →
  pixel cols data q = Some v →
  marks rows cols v data (<[Z.to_nat (q.1 * cols + q.2) := -1]> data).
Proof.
  intros Hlen Hq Hpix. split; [by rewrite length_insert|].
  intros x Hx. rewrite (pixel_insert rows cols) by done.
  case_decide; [subst x; by right|by left].
Qed.

Lemma cells_of_insert data q :
  Z.of_nat (length data) = rows * cols → in_grid rows cols q →
  cells_of rows cols (<[Z.to_nat (q.1 * cols + q.2) := -1]> data) v
  = cells_of rows cols data v ∖ {[q]}.
Proof.
  intros Hlen Hq. apply set_eq. intros x.
  rewrite elem_of_difference, !elem_of_cells_of, elem_of_singleton.
  split.
  - intros [Hx Hpix]. rewrite (pixel_insert rows cols) in Hpix by done.
    case_decide; [congruence|done].
  - intros [[Hx Hpix] Hne]. split; [done|].
    rewrite (pixel_insert rows cols) by done. by case_decide.
Qed.

Lemma size_cells_of_insert data q :
  Z.of_nat (length data) = rows * cols → in_grid rows cols q →
  pixel cols data q = Some v →
  size (cells_of rows cols data v)
  = S (size (cells_of rows cols
               (<[Z.to_nat (q.1 * cols + q.2) := -1]> data) v)).
Proof.
  intros Hlen Hq Hpix. rewrite cells_of_insert by done.
  assert (q ∈ cells_of rows cols data v) as Hin
    by by apply elem_of_cells_of.
  rewrite size_difference by set_solver. rewrite size_singleton.
  assert (size (cells_of rows cols data v) ≠ 0)%nat; [|lia].
  apply size_non_empty_iff. set_solver.
Qed.

(** One more neighbour handled: the traversal from [cur] found the cell
    [n] next to it, marked it and ran the traversal from [n]. *)
Lemma flooded_step cur data count data1 count1 n data2 count2 :
  Z.of_nat (length data) = rows * cols →
  flooded rows cols v cur data count data1 count1 →
  n ∈ neighbours cur → in_grid rows cols n →
  pixel cols data1 n = Some v →
  flooded rows cols v n (<[Z.to_nat (n.1 * cols + n.2) := -1]> data1)
          (count1 + 1) data2 count2 →
  sealed rows cols data2 v n →
  flooded rows cols v cur data count data2 count2.
Proof.
  intros Hlen [Hm1 Hc1 Hconn1 Hseal1] Hadj Hn Hpix
         [Hm2 Hc2 Hconn2 Hseal2] Hsealn.
  assert (Z.of_nat (length data1) = rows * cols) as Hlen1
    by (destruct Hm1 as [-> _]; done).
  pose proof (marks_insert data1 n Hlen1 Hn Hpix) as Hm1'.
  pose proof (marks_trans _ _ _ Hm1' Hm2) as Hm12.
  pose proof (marks_cells_of _ _ Hm1) as Hsub1.
  assert (n ∈ cells_of rows cols data1 v) as Hn1
    by by apply elem_of_cells_of.
  assert (connected rows cols data v cur n) as Hcn.
  { apply connected_one; [done..|].
    apply Hsub1 in Hn1. by apply elem_of_cells_of in Hn1 as [_ ?]. }
  split.
  - by eapply marks_trans.
  - rewrite Hc2, Hc1.
    rewrite (size_cells_of_insert data1 n) by done. lia.
  - intros q Hq Hq2.
    destruct (decide (q ∈ cells_of rows cols data1 v)) as [Hq1|Hq1];
      [|by apply Hconn1].
    destruct (decide (q = n)) as [->|Hne]; [done|].
    eapply connected_trans; [done|].
    eapply connected_mono; [|apply Hconn2; [|done]].
    + intros x Hx Hpx.
      assert (x ∈ cells_of rows cols data v) as Hxin.
      { apply Hsub1, (marks_cells_of _ _ Hm1').
        by apply elem_of_cells_of. }
      by apply elem_of_cells_of in Hxin as [_ ?].
    + rewrite cells_of_insert by done. set_solver.
  - intros q Hq Hq2.
    destruct (decide (q ∈ cells_of rows cols data1 v)) as [Hq1|Hq1].
    + destruct (decide (q = n)) as [->|Hne]; [done|].
      apply Hseal2; [|done].
      rewrite cells_of_insert by done. set_solver.
    + eapply sealed_mono; [done|]. by apply Hseal1.
Qed.

(** The cells marked by steps that only mark cells of value [v]. *)
Lemma newly_marked_marks data data' :
  marks rows cols v data data' →
  newly_marked rows cols data data'
  = cells_of rows cols data v ∖ cells_of rows cols data' v.
Proof.
  intros [_ Hm]. apply set_eq. intros q. unfold newly_marked.
  rewrite !elem_of_difference, !elem_of_cells_of.
  split.
  - intros [[Hq Hq'] Hnot]. destruct (Hm q Hq) as [Heq|[Hqv _]].
    + destruct Hnot. split; [done|congruence].
    + split; [done|]. intros [_ ?]. congruence.
  - intros [[Hq Hqv] Hnot]. destruct (Hm q Hq) as [Heq|[_ Hq']].
    + destruct Hnot. split; [done|congruence].
    + split; [done|]. intros [_ ?]. congruence.
Qed.

Lemma flooded_refl cur data count :
  flooded rows cols v cur data count data count.
Proof. split; [apply marks_refl|lia|done..]. Qed.
End marking.

(** ** The traversal *)

Lemma CheckNextPixel_unfold fuel rows cols curRow curCol currentPixel count :
  CheckNextPixel (S fuel) rows cols curRow curCol currentPixel count
  = for_each (int_range 4)
      (check_neighbour fuel rows cols curRow curCol currentPixel) count.
Proof. reflexivity. Qed.

Section traversal.
Context (rows cols : Z).
Context (Hrows : 0 ≤ rows) (Hcols : 0 ≤ cols).
Context (Hint : rows * cols ≤ INT_MAX).
Context (v : Z) (Hv : v ≠ -1).

Lemma neighbour_int cur i :
  in_grid rows cols cur → i ∈ int_range 4 →
  int_add cur.1 (dr !!! Z.to_nat i) = (neighbour cur i).1
  ∧ int_add cur.2 (dc !!! Z.to_nat i) = (neighbour cur i).2.
Proof.
  intros Hcur Hi. unfold in_grid in Hcur.
  assert (rows ≤ INT_MAX ∧ cols ≤ INT_MAX) as [??] by nia.
  unfold INT_MAX in *. unfold int_range in Hi. apply elem_of_seqZ in Hi.
  assert (i = 0 ∨ i = 1 ∨ i = 2 ∨ i = 3) as Hcase by lia. clear Hi.
  unfold int_add, neighbour. cbn [fst snd].
  destruct Hcase as [-> | [-> | [-> | ->]]]; eval_dir;
    (split; apply wrap_int_id; unfold is_int, INT_MIN, INT_MAX; lia).
Qed.

Lemma check_neighbour_flood fuel :
  (∀ cur data count,
     may_traverse rows cols v fuel cur data count →
     returns (CheckNextPixel fuel rows cols cur.1 cur.2 v count)
             (mkImage rows cols data) (traversed rows cols v cur data count)) →
  ∀ cur data count data1 count1 i,
    may_traverse rows cols v (S fuel) cur data count →
    i ∈ int_range 4 →
    flooded rows cols v cur data count data1 count1 →
    returns (check_neighbour fuel rows cols cur.1 cur.2 v i count1)
      (mkImage rows cols data1)
      (λ count2 img2, ∃ data2,
         img2 = mkImage rows cols data2
         ∧ flooded rows cols v cur data count data2 count2
         ∧ marks rows cols v data1 data2
         ∧ (in_grid rows cols (neighbour cur i) →
            pixel cols data2 (neighbour cur i) ≠ Some v)).
Proof.
  intros IH cur data count data1 count1 i
         (Hlen & Hcur & Hlo & Hhi & Hfuel) Hi Hfl.
  unfold check_neighbour.
  destruct (neighbour_int cur i Hcur Hi) as [-> ->].
  set (n := neighbour cur i).
  assert (Z.of_nat (length data1) = rows * cols) as Hlen1.
  { destruct Hfl as [[-> _] _ _ _]. done. }
  pose proof (marks_cells_of rows cols Hrows Hcols Hint v Hv _ _ (flooded_marks _ _ _ _ _ _ _ _ Hfl))
    as Hsub1.
  apply subseteq_size in Hsub1.
  pose proof (flooded_count _ _ _ _ _ _ _ _ Hfl) as Hc1.
  case_decide as Hn.
  - assert (in_grid rows cols n) as Hin by (unfold in_grid; lia).
    destruct (pixel_is_Some rows cols Hrows Hcols Hint data1 n Hlen1 Hin)
      as [x Hx].
    apply returns_bind. eapply returns_done.
    { apply (read_At_grid rows cols Hrows Hcols Hint data1 n.1 n.2 x);
        by destruct n. }
    case_decide as Hxv.
    + subst x. apply returns_bind. eapply returns_done.
      { apply (write_At_grid rows cols Hrows Hcols Hint data1 n.1 n.2);
          [done|by destruct n]. }
      pose proof (size_cells_of_insert rows cols Hrows Hcols Hint v Hv
                    data1 n Hlen1 Hin Hx) as Hsize.
      assert (int_add count1 1 = count1 + 1) as ->.
      { apply wrap_int_id. unfold is_int. lia. }
      eapply returns_mono; [apply IH|].
      * split_and!; [by rewrite length_insert|done|lia|lia|lia].
      * intros count2 img2 (data2 & -> & Hfl2 & Hseal2).
        exists data2. split; [done|].
        pose proof (marks_insert rows cols Hrows Hcols Hint v Hv data1 n
                      Hlen1 Hin Hx) as Hm1.
        pose proof (marks_trans rows cols Hrows Hcols Hint v Hv _ _ _ Hm1
                      (flooded_marks _ _ _ _ _ _ _ _ Hfl2)) as Hm12.
        split_and!; [|done|].
        -- eapply (flooded_step rows cols Hrows Hcols Hint v Hv cur data count
                     data1 count1 n); [done|done| |done..].
           apply elem_of_neighbours. by exists i.
        -- intros _. eapply (marks_keeps_other rows cols Hrows Hcols Hint v Hv);
             [apply (flooded_marks _ _ _ _ _ _ _ _ Hfl2)|done|].
           rewrite (pixel_insert rows cols Hrows Hcols Hint) by done.
           rewrite decide_True by done. congruence.
    + apply returns_ret. exists data1.
      split_and!; [done|done|by apply marks_refl|]. congruence.
  - apply returns_ret. exists data1.
    split_and!; [done|done|by apply marks_refl|].
    unfold in_grid. lia.
Qed.

(** With fuel above the number of cells that hold [v], the traversal
    returns, having marked and counted the cells of value [v] reachable
    from [cur], and left no cell of value [v] next to them or to [cur]. *)
Lemma CheckNextPixel_flood fuel cur data count :
  may_traverse rows cols v fuel cur data count →
  returns (CheckNextPixel fuel rows cols cur.1 cur.2 v count)
          (mkImage rows cols data) (traversed rows cols v cur data count).
Proof.
  revert cur data count.
  induction fuel as [|fuel IH]; intros cur data count Hpre.
  { destruct Hpre as (_ & _ & _ & _ & ?). lia. }
  rewrite CheckNextPixel_unfold.
  pose (I := λ (seen : list Z) (count1 : Z) (img1 : Image),
          ∃ data1, img1 = mkImage rows cols data1
            ∧ flooded rows cols v cur data count data1 count1
            ∧ ∀ i, i ∈ seen → in_grid rows cols (neighbour cur i) →
                   pixel cols data1 (neighbour cur i) ≠ Some v).
  eapply returns_mono; [apply (returns_for_each I)|].
  - exists data. split_and!; [done|by apply flooded_refl|].
    intros i Hi. by apply elem_of_nil in Hi.
  - intros seen i rest count1 img1 Hl (data1 & -> & Hfl & Hseen).
    eapply returns_mono;
      [by apply (check_neighbour_flood fuel IH cur data count);
         [|rewrite Hl; set_solver|]|].
    intros count2 img2 (data2 & -> & Hfl2 & Hm & Hi).
    exists data2. split_and!; [done..|].
    intros j [Hj|Hj%list_elem_of_singleton]%elem_of_app Hin.
    + eapply (marks_keeps_other rows cols Hrows Hcols Hint v Hv);
        [done..|]. by apply Hseen.
    + subst j. by apply Hi.
  - intros count' img' (data' & -> & Hfl & Hall).
    exists data'. split_and!; [done..|].
    intros q (i & Hi & ->)%elem_of_neighbours Hq. by apply Hall.
Qed.
End traversal.

(** ** The reference flood fill computes the regions *)

Section reference.
Context (rows cols : Z) (data : list Z) (v : Z) (seed : cell).
Context (Hseed : in_grid rows cols seed).

#[local] Abbreviation rounds := (rounds rows cols data v seed).

Lemma elem_of_grow (S : gset cell) q :
  q ∈ grow rows cols data v S
  ↔ q ∈ S ∨ (in_grid rows cols q ∧ pixel cols data q = Some v
             ∧ ∃ p, p ∈ neighbours q ∧ p ∈ S).
Proof.
  unfold grow.
  rewrite elem_of_union, elem_of_list_to_set, list_elem_of_filter.
  rewrite elem_of_all_cells, Exists_exists. tauto.
Qed.

Lemma rounds_0 : rounds 0 = {[seed]}.
Proof. reflexivity. Qed.

Lemma rounds_S k : rounds (S k) = grow rows cols data v (rounds k).
Proof. reflexivity. Qed.

Lemma rounds_sound k q :
  q ∈ rounds k → connected rows cols data v seed q.
Proof.
  revert q. induction k as [|k IH]; intros q.
  - rewrite rounds_0. intros ->%elem_of_singleton. apply connected_refl.
  - rewrite rounds_S.
    intros [Hq|(Hq & Hpix & p & Hadj & Hp)]%elem_of_grow; [by apply IH|].
    eapply connected_step; [by apply IH| |done..].
    by apply neighbours_sym.
Qed.

Lemma rounds_in_grid k : rounds k ⊆ list_to_set (all_cells rows cols).
Proof.
  induction k as [|k IH]; intros q.
  - rewrite rounds_0. intros ->%elem_of_singleton.
    by apply elem_of_list_to_set, elem_of_all_cells.
  - rewrite rounds_S. intros [Hq|(Hq & _)]%elem_of_grow; [by apply IH|].
    by apply elem_of_list_to_set, elem_of_all_cells.
Qed.

Lemma rounds_stable k j :
  grow rows cols data v (rounds k) = rounds k → rounds (j + k) = rounds k.
Proof.
  intros Hk. induction j as [|j IH]; [done|].
  change (S j + k)%nat with (S (j + k)). by rewrite rounds_S, IH.
Qed.

(** Until a round adds nothing, every round adds a cell. *)
Lemma rounds_size k :
  (∃ j, (j < k)%nat ∧ grow rows cols data v (rounds j) = rounds j)
  ∨ (k + 1 ≤ size (rounds k))%nat.
Proof.
  induction k as [|k [(j & Hj & Hstable)|IH]].
  - right. by rewrite rounds_0, size_singleton.
  - left. exists j. split; [lia|done].
  - destruct (decide (grow rows cols data v (rounds k) = rounds k))
      as [Heq|Hne].
    + left. exists k. split; [lia|done].
    + right. assert (rounds k ⊂ rounds (S k)) as Hsub.
      { rewrite rounds_S. split.
        - intros q Hq. apply elem_of_grow. by left.
        - intros Hsub. apply Hne. apply set_eq. intros q. split.
          + apply Hsub.
          + intros Hq. apply elem_of_grow. by left. }
      apply subset_size in Hsub. lia.
Qed.

Lemma region_closed :
  grow rows cols data v (region rows cols data v seed)
  = region rows cols data v seed.
Proof.
  unfold region.
  destruct (rounds_size (length (all_cells rows cols)))
    as [(j & Hj & Hstable)|Hsize].
  - replace (length (all_cells rows cols))
      with ((length (all_cells rows cols) - j) + j)%nat by lia.
    by rewrite rounds_stable.
  - pose proof (subseteq_size _ _
                  (rounds_in_grid (length (all_cells rows cols)))) as Hle.
    rewrite size_list_to_set in Hle by apply NoDup_all_cells. lia.
Qed.

(** The cells of the reference region are the cells connected to the
    seed. *)
Lemma region_spec q :
  q ∈ region rows cols data v seed ↔ connected rows cols data v seed q.
Proof.
  split; [apply rounds_sound|].
  intros Hq. induction Hq as [|q q' _ IH Hadj Hin Hpix].
  - unfold region.
    generalize (length (all_cells rows cols)) as k.
    intros k. induction k as [|k IH].
    + rewrite rounds_0. by apply elem_of_singleton.
    + rewrite rounds_S. apply elem_of_grow. by left.
  - rewrite <- region_closed. apply elem_of_grow. right.
    split_and!; [done..|]. exists q. split; [|done].
    by apply neighbours_sym.
Qed.
End reference.

Lemma region_is_region rows cols data v seed :
  in_grid rows cols seed → pixel cols data seed = Some v →
  is_region rows cols data seed (region rows cols data v seed).
Proof.
  intros Hseed Hpix. exists v. split; [done|]. intros q.
  by apply region_spec.
Qed.

Lemma region_size_is_region rows cols data seed D :
  in_grid rows cols seed → is_region rows cols data seed D →
  region_size rows cols data seed = Z.of_nat (size D).
Proof.
  intros Hseed HD. pose proof HD as (v & Hpix & _).
  unfold region_size. rewrite Hpix. do 2 f_equal.
  eapply is_region_unique; [|done]. by apply region_is_region.
Qed.

(** ** One region found by the scan *)

Section one_region.
Context (rows cols : Z).
Context (Hrows : 0 ≤ rows) (Hcols : 0 ≤ cols).
Context (Hint : rows * cols ≤ INT_MAX).

(** A cell that is not marked yet has, in the current state, the region it
    has in the grid the scan started from. *)
Lemma connected_current g seen countForPixel data q x y :
  scanned rows cols g seen countForPixel data →
  in_grid rows cols q → pixel cols data q = Some x → x ≠ -1 →
  connected rows cols data x q y ↔ connected rows cols g x q y.
Proof.
  intros Hsc Hq Hpix Hx.
  assert (pixel cols g q = Some x) as Hgq.
  { destruct (scanned_pixels _ _ _ _ _ _ Hsc q Hq); congruence. }
  split.
  - apply connected_mono. intros z Hz Hpz.
    destruct (scanned_pixels _ _ _ _ _ _ Hsc z Hz); congruence.
  - intros Hconn. induction Hconn as [|y y' Hconn IH Hadj Hy' Hpy'].
    { apply connected_refl. }
    eapply connected_step; [done..|].
    destruct (scanned_pixels _ _ _ _ _ _ Hsc y' Hy') as [|Hmarked];
      [congruence|].
    destruct (connected_value _ _ _ _ _ _ Hq Hgq Hconn) as [Hy Hgy].
    destruct (connected_value _ _ _ _ _ _ Hq Hpix IH) as [_ Hdy].
    pose proof (scanned_whole _ _ _ _ _ _ Hsc y' y x Hy' Hmarked Hpy' Hx
                  (neighbours_sym _ _ Hadj) Hy Hgy).
    congruence.
Qed.

(** After the seed [q] was marked and the traversal from it has returned,
    the cells marked are the region of [q], and their number is the
    count. *)
Lemma flooded_region data q x data' count' :
  Z.of_nat (length data) = rows * cols →
  in_grid rows cols q → pixel cols data q = Some x → x ≠ -1 →
  flooded rows cols x q (<[Z.to_nat (q.1 * cols + q.2) := -1]> data) 1
          data' count' →
  sealed rows cols data' x q →
  marks rows cols x data data'
  ∧ count' = Z.of_nat (size (cells_of rows cols data x
                             ∖ cells_of rows cols data' x))
  ∧ ∀ y, y ∈ cells_of rows cols data x ∖ cells_of rows cols data' x
         ↔ connected rows cols data x q y.
Proof.
  intros Hlen Hq Hpix Hx [Hm Hc Hconn Hseal] Hsealq.
  pose proof (marks_insert rows cols Hrows Hcols Hint x Hx data q
                Hlen Hq Hpix) as Hm0.
  pose proof (marks_trans rows cols Hrows Hcols Hint x Hx _ _ _ Hm0 Hm)
    as Hm'.
  pose proof (marks_cells_of rows cols Hrows Hcols Hint x Hx _ _ Hm')
    as Hsub.
  pose proof (cells_of_insert rows cols Hrows Hcols Hint x Hx data q
                Hlen Hq) as Hcells0.
  assert (q ∈ cells_of rows cols data x) as Hqin
    by by apply elem_of_cells_of.
  assert (q ∉ cells_of rows cols data' x) as Hqout.
  { rewrite elem_of_cells_of. intros [_ Hq']. revert Hq'.
    apply (marks_keeps_other rows cols Hrows Hcols Hint x Hx _ _ q Hm Hq).
    rewrite (pixel_insert rows cols Hrows Hcols Hint) by done.
    rewrite decide_True by done. congruence. }
  split_and!; [done| |].
  - rewrite size_difference by done.
    rewrite (size_cells_of_insert rows cols Hrows Hcols Hint x Hx data q)
      by done.
    pose proof (subseteq_size _ _
      (marks_cells_of rows cols Hrows Hcols Hint x Hx _ _ Hm)). lia.
  - intros y. rewrite elem_of_difference. split.
    + intros [Hy Hy'].
      destruct (decide (y = q)) as [->|Hne]; [apply connected_refl|].
      eapply connected_mono; [|apply Hconn; [|done]].
      * intros z Hz Hpz.
        assert (z ∈ cells_of rows cols data x) as Hzin.
        { apply (marks_cells_of rows cols Hrows Hcols Hint x Hx _ _ Hm0).
          by apply elem_of_cells_of. }
        by apply elem_of_cells_of in Hzin as [_ ?].
      * by rewrite Hcells0, elem_of_difference, elem_of_singleton.
    + intros Hy. induction Hy as [|y y' _ [IH IH'] Hadj Hy' Hpy'];
        [done|].
      split; [by apply elem_of_cells_of|].
      rewrite elem_of_cells_of. intros [_ Hbad].
      assert (sealed rows cols data' x y) as Hsy.
      { destruct (decide (y = q)) as [->|Hne]; [done|].
        apply Hseal; [|done].
        by rewrite Hcells0, elem_of_difference, elem_of_singleton. }
      by apply (Hsy y').
Qed.

(** At a cell that is marked, the body of the scan changes nothing. *)
Lemma scan_cell_marked fuel countForPixel data q :
  in_grid rows cols q → pixel cols data q = Some (-1) →
  scan_cell fuel rows cols q.1 q.2 countForPixel (mkImage rows cols data)
  = Done countForPixel (mkImage rows cols data).
Proof.
  intros Hq Hpix. unfold scan_cell, bind at 1.
  rewrite (read_At_grid rows cols Hrows Hcols Hint data q.1 q.2 (-1))
    by by destruct q.
  by rewrite decide_True.
Qed.

(** At a cell that holds a value [x] other than the marker, the body of
    the scan marks the region of the cell and raises the counter of [x]
    to the number of its cells. *)
Lemma scan_cell_unmarked fuel countForPixel data q x old :
  Z.of_nat (length data) = rows * cols →
  in_grid rows cols q → pixel cols data q = Some x → x ≠ -1 →
  0 ≤ x → countForPixel !! Z.to_nat x = Some old →
  (Z.to_nat (rows * cols) ≤ fuel)%nat →
  ∃ data' count',
    scan_cell fuel rows cols q.1 q.2 countForPixel (mkImage rows cols data)
    = Done (if decide (count' > old)
            then <[Z.to_nat x := count']> countForPixel
            else countForPixel)
           (mkImage rows cols data')
    ∧ marks rows cols x data data'
    ∧ count' = Z.of_nat (size (cells_of rows cols data x
                               ∖ cells_of rows cols data' x))
    ∧ ∀ y, y ∈ cells_of rows cols data x ∖ cells_of rows cols data' x
           ↔ connected rows cols data x q y.
Proof.
  intros Hlen Hq Hx Hx1 Hx0 Hold Hfuel.
  pose proof (size_cells_of_insert rows cols Hrows Hcols Hint x Hx1
                data q Hlen Hq Hx) as Hsize.
  pose proof (size_cells_of_le rows cols data x Hrows Hcols) as Hle.
  destruct (returns_inv _ _ _
              (CheckNextPixel_flood rows cols Hrows Hcols Hint x Hx1 fuel q
                 (<[Z.to_nat (q.1 * cols + q.2) := -1]> data) 1
                 ltac:(unfold may_traverse, INT_MIN;
                       split_and!;
                         [by rewrite length_insert|done|lia|lia|lia])))
    as (count' & img' & Hrun & data' & -> & Hfl & Hseal).
  destruct (flooded_region data q x data' count'
              Hlen Hq Hx Hx1 Hfl Hseal) as (Hm & Hcount & Hreg).
  exists data', count'. split; [|done].
  unfold scan_cell, bind at 1.
  rewrite (read_At_grid rows cols Hrows Hcols Hint data q.1 q.2 x)
    by by destruct q.
  rewrite decide_False by done. unfold bind at 1.
  rewrite (write_At_grid rows cols Hrows Hcols Hint data q.1 q.2)
    by (done || by destruct q).
  unfold bind at 1. rewrite Hrun.
  unfold array_get. rewrite decide_True by lia. rewrite Hold.
  unfold bind, ret. case_decide; [|done].
  unfold array_set. apply lookup_lt_Some in Hold.
  by rewrite decide_True by lia.
Qed.
End one_region.

(** ** The scan *)

Section scan.
Context (rows cols : Z).
Context (Hrows : 0 ≤ rows) (Hcols : 0 ≤ cols).
Context (Hint : rows * cols ≤ INT_MAX).
Context (g : list Z) (Hg : Z.of_nat (length g) = rows * cols).

(** The invariant after one more region was marked and counted. *)
Lemma scanned_region seen countForPixel data q x data' countForPixel' :
  scanned rows cols g seen countForPixel data →
  in_grid rows cols q → pixel cols data q = Some x → x ≠ -1 →
  marks rows cols x data data' →
  (∀ y, y ∈ cells_of rows cols data x ∖ cells_of rows cols data' x
        ↔ connected rows cols data x q y) →
  length countForPixel' = 256%nat →
  (∀ i c, countForPixel !! i = Some c →
          ∃ c', countForPixel' !! i = Some c' ∧ c ≤ c') →
  (∃ c', countForPixel' !! Z.to_nat x = Some c'
         ∧ Z.of_nat (size (cells_of rows cols data x
                           ∖ cells_of rows cols data' x)) ≤ c') →
  (∀ i c', countForPixel' !! i = Some c' →
           countForPixel !! i = Some c'
           ∨ c' = Z.of_nat (size (cells_of rows cols data x
                                  ∖ cells_of rows cols data' x))) →
  scanned rows cols g (seen ++ [q]) countForPixel' data'.
Proof.
  intros Hsc Hq Hpix Hx Hm Hreg Hlen' Hgrow Hnew Hold.
  set (D := cells_of rows cols data x ∖ cells_of rows cols data' x) in *.
  assert (pixel cols g q = Some x) as Hgq.
  { destruct (scanned_pixels _ _ _ _ _ _ Hsc q Hq); congruence. }
  assert (is_region rows cols g q D) as HD.
  { exists x. split; [done|]. intros y. rewrite Hreg.
    by eapply (connected_current rows cols Hrows Hcols Hint). }
  assert (∀ y, in_grid rows cols y →
            pixel cols data' y = Some (-1)
            ↔ pixel cols data y = Some (-1) ∨ y ∈ D) as Hmarked.
  { intros y Hy. unfold D.
    rewrite elem_of_difference, !elem_of_cells_of.
    destruct Hm as [_ Hm]. destruct (Hm y Hy) as [Heq|[Hyx Hy']].
    - rewrite Heq. split; [by left|]. intros [|[[_ ?] Hnot]]; [done|].
      destruct Hnot. split; [done|congruence].
    - split; [|done]. intros _. right. split; [done|].
      intros [_ ?]. congruence. }
  assert (∀ y, y ∈ D → in_grid rows cols y ∧ pixel cols g y = Some x)
    as HDg.
  { intros y Hy. destruct HD as (x' & ? & HD).
    simplify_eq. apply HD in Hy.
    by apply (connected_value _ _ _ _ _ _ Hq Hgq). }
  destruct HD as (x' & Hx' & HD'). simplify_eq.
  assert (is_region rows cols g q D) as HD by (by exists x).
  split.
  - destruct Hm as [-> _]. by destruct Hsc.
  - done.
  - intros y Hy. destruct Hm as [_ Hm].
    destruct (Hm y Hy) as [-> | [_ ->]]; [|by right].
    by apply (scanned_pixels _ _ _ _ _ _ Hsc).
  - intros y y' w Hy Hdy Hgy Hw Hadj Hy' Hgy'.
    apply Hmarked; [done|]. apply Hmarked in Hdy as [Hdy|HyD]; [| |done].
    + left. by eapply (scanned_whole _ _ _ _ _ _ Hsc y y' w).
    + right. destruct (HDg y HyD) as [_ Hgyx]. simplify_eq.
      apply HD'. eapply connected_step; [by apply HD'|done..].
  - intros y w Dy Hy Hdy Hgy Hw HDy.
    apply Hmarked in Hdy as [Hdy|HyD]; [| |done].
    + destruct (scanned_bound _ _ _ _ _ _ Hsc y w Dy Hy Hdy Hgy Hw HDy)
        as (c & Hc & Hle).
      destruct (Hgrow _ _ Hc) as (c' & Hc' & Hle').
      exists c'. split; [done|lia].
    + destruct (HDg y HyD) as [_ Hgyx]. simplify_eq.
      assert (Dy = D) as ->.
      { eapply is_region_unique; [done|].
        eapply is_region_same; [exact Hq|exact Hgq| |done].
        by apply HD'. }
      done.
  - intros i c' Hc'. destruct (Hold i c' Hc') as [Hc | ->].
    + by apply (scanned_attained _ _ _ _ _ _ Hsc i).
    + right. exists q, D. split_and!; [done|congruence|done|done].
  - intros y [Hy | ->%list_elem_of_singleton]%elem_of_app Hin.
    + apply Hmarked; [done|]. left.
      by apply (scanned_seen _ _ _ _ _ _ Hsc).
    + apply Hmarked; [done|]. right. apply HD'. apply connected_refl.
Qed.
Context (Hvalues : Forall pixel_value g).

(** The invariant after the cell [q] has been handled. *)
Lemma scan_cell_scanned fuel seen countForPixel data q :
  (Z.to_nat (rows * cols) ≤ fuel)%nat →
  in_grid rows cols q →
  scanned rows cols g seen countForPixel data →
  returns (scan_cell fuel rows cols q.1 q.2 countForPixel)
    (mkImage rows cols data)
    (λ countForPixel' img', ∃ data',
       img' = mkImage rows cols data'
       ∧ scanned rows cols g (seen ++ [q]) countForPixel' data').
Proof.
  intros Hfuel Hq Hsc.
  assert (Z.of_nat (length data) = rows * cols) as Hlen.
  { by rewrite (scanned_length _ _ _ _ _ _ Hsc). }
  destruct (pixel_is_Some rows cols Hrows Hcols Hint data q Hlen Hq)
    as [x Hx].
  destruct (decide (x = -1)) as [->|Hx1].
  { eapply returns_done;
      [by apply (scan_cell_marked rows cols Hrows Hcols Hint)|].
    exists data. split; [done|].
    destruct Hsc. split; try done.
    intros y [Hy | ->%list_elem_of_singleton]%elem_of_app Hin; auto. }
  assert (pixel cols g q = Some x) as Hgq.
  { destruct (scanned_pixels _ _ _ _ _ _ Hsc q Hq); congruence. }
  assert (0 ≤ x ≤ 255) as Hrange.
  { destruct (Forall_lookup_1 _ _ _ _ Hvalues Hgq); [done|lia]. }
  pose proof (scanned_counters _ _ _ _ _ _ Hsc) as Hlen256.
  destruct (lookup_lt_is_Some_2 countForPixel (Z.to_nat x)) as [old Hold];
    [lia|].
  destruct (scan_cell_unmarked rows cols Hrows Hcols Hint fuel
              countForPixel data q x old Hlen Hq Hx Hx1
              ltac:(lia) Hold Hfuel)
    as (data' & count' & Hrun & Hm & Hcount & Hreg).
  eapply returns_done; [done|]. exists data'. split; [done|].
  apply lookup_lt_Some in Hold as Hlt.
  case_decide as Hgt.
  - eapply scanned_region; [done..| | | |].
    + by rewrite length_insert.
    + intros i c Hc. destruct (decide (i = Z.to_nat x)) as [->|Hne].
      * exists count'. rewrite list_lookup_insert_eq by lia.
        split; [done|]. simplify_eq. lia.
      * exists c. by rewrite list_lookup_insert_ne.
    + exists count'. rewrite list_lookup_insert_eq by lia.
      split; [done|lia].
    + intros i c' Hc'. destruct (decide (i = Z.to_nat x)) as [->|Hne].
      * rewrite list_lookup_insert_eq in Hc' by lia. right. congruence.
      * rewrite list_lookup_insert_ne in Hc' by done. by left.
  - eapply scanned_region; [done..| | |].
    + intros i c Hc. exists c. split; [done|lia].
    + exists old. split; [done|lia].
    + intros i c' Hc'. by left.
Qed.

(** The scan of the whole grid. *)
Lemma scan_scanned fuel :
  (Z.to_nat (rows * cols) ≤ fuel)%nat →
  returns (scan fuel rows cols) (mkImage rows cols g)
    (λ countForPixel img', ∃ data',
       img' = mkImage rows cols data'
       ∧ scanned rows cols g (all_cells rows cols) countForPixel data').
Proof.
  intros Hfuel. unfold returns, wp, scan.
  rewrite (for_each_nested rows cols
             (λ row col s, scan_cell fuel rows cols row col s)).
  apply (returns_for_each
           (λ seen countForPixel img', ∃ data',
              img' = mkImage rows cols data'
              ∧ scanned rows cols g seen countForPixel data')).
  - exists g. split; [done|]. split; try done.
    + intros q _. by left.
    + intros q q' w Hq Hmarked Hgq. congruence.
    + intros q w D Hq Hmarked Hgq. congruence.
    + intros i c [-> _]%lookup_replicate. by left.
    + intros q Hq. by apply elem_of_nil in Hq.
  - intros seen q rest countForPixel img Hl (data & -> & Hsc).
    apply scan_cell_scanned; [done| |done].
    apply elem_of_all_cells. rewrite Hl. set_solver.
Qed.
End scan.

(** ** The result of the scan *)

Lemma foldl_max_spec (l : list Z) (init : Z) :
  let n := foldl (λ maxCount c, if decide (c > maxCount) then c else maxCount)
                 init l in
  init ≤ n ∧ (∀ c, c ∈ l → c ≤ n) ∧ (n = init ∨ n ∈ l).
Proof.
  revert init. induction l as [|c l IH]; intros init; cbn [foldl].
  - split_and!; [lia| |by left]. intros c Hc. by apply elem_of_nil in Hc.
  - destruct (IH (if decide (c > init) then c else init)) as (Hle & Hall & Hin).
    split_and!.
    + case_decide; lia.
    + intros c' [->|Hc']%elem_of_cons; [|by apply Hall].
      case_decide; lia.
    + destruct Hin as [Hin|Hin]; [|right; by apply elem_of_cons; right].
      rewrite Hin. case_decide; [right; by apply elem_of_cons; left|by left].
Qed.

Lemma max_count_spec (countForPixel : list Z) :
  0 ≤ max_count countForPixel
  ∧ (∀ c, c ∈ countForPixel → c ≤ max_count countForPixel)
  ∧ (max_count countForPixel = 0
     ∨ max_count countForPixel ∈ countForPixel).
Proof. apply foldl_max_spec. Qed.

Lemma largest_over_spec rows cols data seeds :
  0 ≤ largest_over rows cols data seeds
  ∧ (∀ s, s ∈ seeds →
          region_size rows cols data s ≤ largest_over rows cols data seeds)
  ∧ (largest_over rows cols data seeds = 0
     ∨ ∃ s, s ∈ seeds
            ∧ largest_over rows cols data seeds
              = region_size rows cols data s).
Proof.
  unfold largest_over. induction seeds as [|s seeds (Hle & Hall & Hin)].
  - split_and!; [done| |by left]. intros s Hs. by apply elem_of_nil in Hs.
  - cbn [fmap list_fmap foldr]. split_and!.
    + lia.
    + intros s' [->|Hs']%elem_of_cons; [lia|]. specialize (Hall s' Hs'). lia.
    + destruct (Z.max_spec (region_size rows cols data s)
                  (foldr Z.max 0 (region_size rows cols data <$> seeds)))
        as [[_ Hmax]|[_ Hmax]]; rewrite Hmax.
      * destruct Hin as [Hin|(s' & Hs' & Hin)]; [by left|].
        right. exists s'. split; [by apply elem_of_cons; right|done].
      * right. exists s. split; [by apply elem_of_cons; left|done].
Qed.

(** A grid whose cells are all marked. *)
Lemma all_marked rows cols data :
  0 ≤ rows → 0 ≤ cols → Z.of_nat (length data) = rows * cols →
  (∀ q, in_grid rows cols q → pixel cols data q = Some (-1)) →
  data = replicate (length data) (-1).
Proof.
  intros Hrows Hcols Hlen Hall.
  apply (list_eq_same_length _ _ (length data));
    [by rewrite length_replicate|done|].
  intros i x y Hi Hx Hy. apply lookup_replicate in Hy as [-> _].
  assert (0 < cols) as Hpos by nia.
  pose proof (Z.div_mod (Z.of_nat i) cols) as Hdm.
  pose proof (Z.mod_pos_bound (Z.of_nat i) cols Hpos) as Hmod.
  assert (0 ≤ Z.of_nat i `div` cols < rows) as Hdiv.
  { split; [apply Z.div_pos; lia|].
    apply Z.div_lt_upper_bound; [done|]. nia. }
  specialize (Hall (Z.of_nat i `div` cols, Z.of_nat i `mod` cols)).
  unfold in_grid, pixel in Hall. cbn [fst snd] in Hall.
  replace (Z.of_nat i `div` cols * cols + Z.of_nat i `mod` cols)
    with (Z.of_nat i) in Hall by lia.
  rewrite Nat2Z.id in Hall. rewrite Hall in Hx by lia. congruence.
Qed.

(** With fuel for every cell of the grid, the scan of a grid of pixel
    values returns the size of the largest region of unmarked cells, and
    leaves every cell marked. *)
Lemma FindLargestConnected_unmarked rows cols g fuel :
  0 ≤ rows → 0 ≤ cols → rows * cols ≤ INT_MAX →
  Z.of_nat (length g) = rows * cols →
  Forall pixel_value g →
  (Z.to_nat (rows * cols) ≤ fuel)%nat →
  FindLargestConnected fuel rows cols (mkImage rows cols g)
  = Done (largest_unmarked_region rows cols g)
         (mkImage rows cols (replicate (length g) (-1))).
Proof.
  intros Hrows Hcols Hint Hlen Hvalues Hfuel.
  destruct (returns_inv _ _ _
              (scan_scanned rows cols Hrows Hcols Hint g Hlen Hvalues
                 fuel Hfuel))
    as (countForPixel & img' & Hscan & data' & -> & Hsc).
  unfold FindLargestConnected, bind. rewrite Hscan. unfold ret.
  assert (∀ q, in_grid rows cols q → pixel cols data' q = Some (-1))
    as Hmarked.
  { intros q Hq. apply (scanned_seen _ _ _ _ _ _ Hsc); [|done].
    by apply elem_of_all_cells. }
  assert (Z.of_nat (length data') = rows * cols) as Hlen'.
  { by rewrite (scanned_length _ _ _ _ _ _ Hsc). }
  f_equal.
  - destruct (max_count_spec countForPixel) as (Hn0 & Hnall & Hnin).
    destruct (largest_over_spec rows cols g
                (filter (λ q, pixel cols g q ≠ Some (-1))
                   (all_cells rows cols))) as (Hm0 & Hmall & Hmin).
    fold (largest_unmarked_region rows cols g) in *.
    apply Z.le_antisymm.
    + destruct Hnin as [->|Hnin]; [done|].
      apply list_elem_of_lookup in Hnin as [i Hi].
      destruct (scanned_attained _ _ _ _ _ _ Hsc i _ Hi)
        as [->|(q & D & Hq & Hgq & HD & ->)]; [done|].
      rewrite <- (region_size_is_region rows cols g q D) by done.
      apply Hmall. apply list_elem_of_filter. split; [done|].
      by apply elem_of_all_cells.
    + destruct Hmin as [->|(s & Hs & ->)]; [done|].
      apply list_elem_of_filter in Hs as [Hgs Hs%elem_of_all_cells].
      destruct (pixel_is_Some rows cols Hrows Hcols Hint g s Hlen Hs)
        as [w Hw].
      destruct (scanned_bound _ _ _ _ _ _ Hsc s w
                  (region rows cols g w s) Hs (Hmarked s Hs) Hw)
        as (c & Hc & Hle); [congruence|by apply region_is_region|].
      unfold region_size. rewrite Hw.
      etrans; [done|]. apply Hnall. apply list_elem_of_lookup. eauto.
  - f_equal. rewrite <- (scanned_length _ _ _ _ _ _ Hsc).
    by apply (all_marked rows cols).
Qed.

Lemma grid_image rows cols img :
  grid rows cols img → img = mkImage rows cols (data_ img).
Proof. intros [<- <- _ _ _ _]. by destruct img. Qed.

Lemma filter_all {A} (P : A → Prop) `{!∀ x, Decision (P x)} (l : list A) :
  (∀ x, x ∈ l → P x) → filter P l = l.
Proof.
  induction l as [|x l IH]; intros Hall; [done|].
  rewrite filter_cons_True by (apply Hall; by left).
  f_equal. apply IH. intros y Hy. apply Hall. by right.
Qed.

(** Without marked cells in the grid, every cell is a seed. *)
Lemma largest_unmarked_region_all rows cols data :
  0 ≤ rows → 0 ≤ cols → rows * cols ≤ INT_MAX →
  Z.of_nat (length data) = rows * cols →
  Forall (λ x, 0 ≤ x ≤ 255) data →
  largest_unmarked_region rows cols data = largest_region rows cols data.
Proof.
  intros Hrows Hcols Hint Hlen Hvalues.
  unfold largest_unmarked_region, largest_region.
  rewrite filter_all; [done|].
  intros q Hq%elem_of_all_cells.
  destruct (pixel_is_Some rows cols Hrows Hcols Hint data q Hlen Hq)
    as [x Hx].
  pose proof (Forall_lookup_1 _ _ _ _ Hvalues Hx) as Hrange. cbn in Hrange.
  rewrite Hx. intros [= ->]. lia.
Qed.

(** The reference result is the largest size of a region of the grid: no
    region is larger, and a grid with a cell has a region of that size. *)
Lemma largest_region_spec rows cols data :
  0 ≤ rows → 0 ≤ cols → rows * cols ≤ INT_MAX →
  Z.of_nat (length data) = rows * cols →
  (∀ q D, in_grid rows cols q → is_region rows cols data q D →
          Z.of_nat (size D) ≤ largest_region rows cols data)
  ∧ (largest_region rows cols data = 0
     ∨ ∃ q D, in_grid rows cols q ∧ is_region rows cols data q D
              ∧ largest_region rows cols data = Z.of_nat (size D)).
Proof.
  intros Hrows Hcols Hint Hlen.
  destruct (largest_over_spec rows cols data (all_cells rows cols))
    as (_ & Hall & Hin).
  fold (largest_region rows cols data) in *. split.
  - intros q D Hq HD.
    rewrite <- (region_size_is_region rows cols data q D) by done.
    by apply Hall, elem_of_all_cells.
  - destruct Hin as [Hin|(s & Hs%elem_of_all_cells & Hin)]; [by left|].
    right.
    destruct (pixel_is_Some rows cols Hrows Hcols Hint data s Hlen Hs)
      as [v Hv].
    exists s, (region rows cols data v s).
    split_and!; [done|by apply region_is_region|].
    rewrite Hin. unfold region_size. by rewrite Hv.
Qed.

(** ** The claims on the result *)

(** C1. On a grid whose cells all lie in 0..255, with fuel for every cell,
    [FindLargestConnected] returns what the reference flood fill computes:
    the size of the largest 4-connected region of equal-valued cells; it
    leaves every cell marked with -1. *)
Theorem FindLargestConnected_largest_region rows cols img fuel :
  grid rows cols img →
  Forall (λ x, 0 ≤ x ≤ 255) (data_ img) →
  (Z.to_nat (rows * cols) ≤ fuel)%nat →
  FindLargestConnected fuel rows cols img
  = Done (largest_region rows cols (data_ img))
         (mkImage rows cols (replicate (length (data_ img)) (-1))).
Proof.
  intros Hgrid Hvalues Hfuel.
  rewrite (grid_image rows cols img Hgrid) at 1.
  destruct Hgrid as [_ _ Hrows Hcols Hlen Hint].
  rewrite <- largest_unmarked_region_all by done.
  apply FindLargestConnected_unmarked; [done..| |done].
  eapply Forall_impl; [done|]. intros x Hx. by right.
Qed.

Lemma FindLargestConnected_largest_region_witness :
  FindLargestConnected 6 2 3 (mkImage 2 3 [7; 7; 0; 0; 7; 0])
  = Done (largest_region 2 3 [7; 7; 0; 0; 7; 0])
         (mkImage 2 3 (replicate 6 (-1))).
Proof.
  apply (FindLargestConnected_largest_region 2 3
           (mkImage 2 3 [7; 7; 0; 0; 7; 0]) 6).
  - split; cbn; unfold INT_MAX; lia.
  - cbn. repeat (apply Forall_cons_2; [lia|]). apply Forall_nil_2.
  - cbn. lia.
Defined.

(** C10. A grid may hold the marker -1 beside values of 0..255.  The scan
    then returns without failure; the cells that hold -1 at the start are no
    seeds, so the result is the largest region over the other cells; and a
    region of such a cell holds no cell of value -1, which therefore
    separates the cells on its two sides. *)
Theorem FindLargestConnected_skips_marked rows cols img fuel :
  grid rows cols img →
  Forall pixel_value (data_ img) →
  (Z.to_nat (rows * cols) ≤ fuel)%nat →
  FindLargestConnected fuel rows cols img
  = Done (largest_unmarked_region rows cols (data_ img))
         (mkImage rows cols (replicate (length (data_ img)) (-1)))
  ∧ ∀ q D, in_grid rows cols q → pixel cols (data_ img) q ≠ Some (-1) →
           is_region rows cols (data_ img) q D →
           ∀ y, y ∈ D → pixel cols (data_ img) y ≠ Some (-1).
Proof.
  intros Hgrid Hvalues Hfuel. split.
  - rewrite (grid_image rows cols img Hgrid) at 1.
    destruct Hgrid as [_ _ Hrows Hcols Hlen Hint].
    by apply FindLargestConnected_unmarked.
  - intros q D Hq Hpix (v & Hv & HD) y Hy%HD.
    destruct (connected_value _ _ _ _ _ _ Hq Hv Hy) as [_ Hvy].
    congruence.
Qed.

Lemma FindLargestConnected_skips_marked_witness :
  FindLargestConnected 3 1 3 (mkImage 1 3 [1; -1; 1])
  = Done (largest_unmarked_region 1 3 [1; -1; 1])
         (mkImage 1 3 (replicate 3 (-1)))
  ∧ ∀ q D, in_grid 1 3 q → pixel 3 [1; -1; 1] q ≠ Some (-1) →
           is_region 1 3 [1; -1; 1] q D →
           ∀ y, y ∈ D → pixel 3 [1; -1; 1] y ≠ Some (-1).
Proof.
  apply (FindLargestConnected_skips_marked 1 3 (mkImage 1 3 [1; -1; 1]) 3).
  - split; cbn; unfold INT_MAX; lia.
  - cbn. unfold pixel_value.
    repeat (apply Forall_cons_2; [lia|]). apply Forall_nil_2.
  - cbn. lia.
Defined.

(** Two cells of value 1 with a marked cell between them are two regions of
    one cell, and a grid of marked cells has no region. *)
Example marked_cell_is_a_barrier :
  FindLargestConnected 3 1 3 (mkImage 1 3 [1; -1; 1])
  = Done 1 (mkImage 1 3 [-1; -1; -1])
  ∧ largest_unmarked_region 1 3 [1; -1; 1] = 1
  ∧ FindLargestConnected 3 1 3 (mkImage 1 3 [1; 1; 1])
    = Done 3 (mkImage 1 3 [-1; -1; -1]).
Proof. vm_compute. done. Qed.

Example marked_grid_has_no_region :
  FindLargestConnected 4 2 2 (mkImage 2 2 [-1; -1; -1; -1])
  = Done 0 (mkImage 2 2 [-1; -1; -1; -1]).
Proof. vm_compute. done. Qed.

(** ** A grid of one value *)

Section constant_grid.
Context (rows cols : Z).
Context (Hrows : 1 ≤ rows) (Hcols : 1 ≤ cols).
Context (Hint : rows * cols ≤ INT_MAX).
Context (v : Z).

#[local] Abbreviation data := (replicate (Z.to_nat (rows * cols)) v).

Lemma pixel_constant q : in_grid rows cols q → pixel cols data q = Some v.
Proof.
  intros Hq. unfold pixel, data. apply lookup_replicate_2.
  pose proof (index_bounds rows cols ltac:(lia) ltac:(lia) Hint q Hq). lia.
Qed.

Lemma connected_down (n : nat) :
  Z.of_nat n < rows →
  connected rows cols data v (0, 0) (Z.of_nat n, 0).
Proof.
  induction n as [|n IH]; intros Hn; [apply connected_refl|].
  eapply connected_step; [apply IH; lia| | |].
  - unfold neighbours. cbn [fst snd].
    replace (Z.of_nat (S n)) with (Z.of_nat n + 1) by lia.
    rewrite !elem_of_cons. auto.
  - unfold in_grid. cbn. lia.
  - apply pixel_constant. unfold in_grid. cbn. lia.
Qed.

Lemma connected_right r (m : nat) :
  0 ≤ r < rows → Z.of_nat m < cols →
  connected rows cols data v (0, 0) (r, Z.of_nat m).
Proof.
  intros Hr. induction m as [|m IH]; intros Hm.
  - replace r with (Z.of_nat (Z.to_nat r)) by lia.
    apply connected_down. lia.
  - eapply connected_step; [apply IH; lia| | |].
    + unfold neighbours. cbn [fst snd].
      replace (Z.of_nat (S m)) with (Z.of_nat m + 1) by lia.
      rewrite !elem_of_cons. auto.
    + unfold in_grid. cbn. lia.
    + apply pixel_constant. unfold in_grid. cbn. lia.
Qed.

Lemma connected_constant p q :
  in_grid rows cols p → in_grid rows cols q →
  connected rows cols data v p q.
Proof.
  assert (∀ x, in_grid rows cols x → connected rows cols data v (0, 0) x)
    as Hfrom.
  { intros [r c] [Hr Hc]. cbn in Hr, Hc.
    replace c with (Z.of_nat (Z.to_nat c)) by lia.
    apply connected_right; lia. }
  assert (in_grid rows cols (0, 0)) as H00 by (unfold in_grid; cbn; lia).
  intros Hp Hq. eapply connected_trans; [|by apply Hfrom].
  apply connected_sym; [done|by apply pixel_constant|by apply Hfrom].
Qed.

(** The region of every cell is the whole grid. *)
Lemma region_size_constant q :
  in_grid rows cols q → region_size rows cols data q = rows * cols.
Proof.
  intros Hq.
  rewrite (region_size_is_region rows cols data q
             (list_to_set (all_cells rows cols))); [|done|].
  - rewrite size_list_to_set by apply NoDup_all_cells.
    rewrite length_all_cells. nia.
  - exists v. split; [by apply pixel_constant|]. intros y.
    rewrite elem_of_list_to_set, elem_of_all_cells. split.
    + by apply connected_constant.
    + intros Hy.
      by apply (connected_value _ _ _ _ _ _ Hq (pixel_constant q Hq)).
Qed.

Lemma largest_unmarked_region_constant :
  v ≠ -1 → largest_unmarked_region rows cols data = rows * cols.
Proof.
  intros Hv. unfold largest_unmarked_region.
  assert (filter (λ q, pixel cols data q ≠ Some (-1)) (all_cells rows cols)
          = all_cells rows cols) as ->.
  { apply filter_all. intros q Hq%elem_of_all_cells.
    rewrite pixel_constant by done. congruence. }
  destruct (largest_over_spec rows cols data (all_cells rows cols))
    as (_ & Hall & Hin).
  assert (in_grid rows cols (0, 0)) as H00 by (unfold in_grid; cbn; lia).
  specialize (Hall (0, 0)). rewrite elem_of_all_cells in Hall.
  rewrite region_size_constant in Hall by done. specialize (Hall H00).
  destruct Hin as [Hin|(s & Hs%elem_of_all_cells & Hin)]; [nia|].
  by rewrite Hin, region_size_constant.
Qed.
End constant_grid.

(** C3. On a grid of [rows] by [cols] cells, [rows] and [cols] at least 1,
    that all hold one value of 0..255, [FindLargestConnected] returns
    [rows * cols]. *)
Theorem FindLargestConnected_constant rows cols v fuel :
  1 ≤ rows → 1 ≤ cols → rows * cols ≤ INT_MAX →
  0 ≤ v ≤ 255 →
  (Z.to_nat (rows * cols) ≤ fuel)%nat →
  FindLargestConnected fuel rows cols
    (mkImage rows cols (replicate (Z.to_nat (rows * cols)) v))
  = Done (rows * cols)
         (mkImage rows cols (replicate (Z.to_nat (rows * cols)) (-1))).
Proof.
  intros Hrows Hcols Hint Hv Hfuel.
  rewrite FindLargestConnected_unmarked; [|lia|lia|done| | |done].
  - rewrite largest_unmarked_region_constant by (done || lia).
    by rewrite length_replicate.
  - rewrite length_replicate. nia.
  - apply Forall_replicate. by right.
Qed.

Lemma FindLargestConnected_constant_witness :
  FindLargestConnected 12 3 4 (mkImage 3 4 (replicate (Z.to_nat (3 * 4)) 200))
  = Done (3 * 4) (mkImage 3 4 (replicate (Z.to_nat (3 * 4)) (-1))).
Proof.
  apply (FindLargestConnected_constant 3 4 200 12);
    unfold INT_MAX; cbn; lia.
Defined.

(** ** The sample image of [main] *)

Lemma sample_pixel_values : Forall pixel_value sample_data.
Proof.
  unfold sample_data, pixel_value.
  repeat (apply Forall_cons_2; [lia|]). apply Forall_nil_2.
Qed.

Lemma sample_unmarked_reference :
  largest_unmarked_region 5 6 sample_data = 9.
Proof. vm_compute. reflexivity. Qed.

(** C2, as the code has it: on the sample image of [main], with fuel for its
    30 cells, [FindLargestConnected] returns 9, the size of the region of
    value 4. *)
Theorem FindLargestConnected_sample fuel :
  (30 ≤ fuel)%nat →
  FindLargestConnected fuel 5 6 sample_image
  = Done 9 (mkImage 5 6 (replicate 30 (-1))).
Proof.
  intros Hfuel. unfold sample_image.
  rewrite FindLargestConnected_unmarked;
    [|lia|lia|unfold INT_MAX; lia|done|apply sample_pixel_values|cbn; lia].
  by rewrite sample_unmarked_reference.
Qed.

Lemma FindLargestConnected_sample_witness :
  FindLargestConnected 30 5 6 sample_image
  = Done 9 (mkImage 5 6 (replicate 30 (-1))).
Proof. apply (FindLargestConnected_sample 30). lia. Defined.

(** C2 as stated fails: whatever the fuel, the result on the sample image is
    not 6. *)
Lemma FindLargestConnected_sample_not_6 :
  ¬ ∃ fuel img', FindLargestConnected fuel 5 6 sample_image = Done 6 img'.
Proof.
  intros (fuel & img' & H).
  destruct (decide (30 ≤ fuel)%nat) as [Hfuel|Hfuel].
  - unfold sample_image in H.
    rewrite FindLargestConnected_unmarked in H;
      [|lia|lia|unfold INT_MAX; lia|done|apply sample_pixel_values|cbn; lia].
    rewrite sample_unmarked_reference in H. discriminate H.
  - do 30 (destruct fuel as [|fuel]; [vm_compute in H; discriminate H|]).
    lia.
Qed.

(** ** Marking is one-way and cell access is guarded *)

Lemma only_marked_refl img : only_marked img img.
Proof. split_and!; [done..|]. intros i x Hx. by left. Qed.

Lemma only_marked_trans img1 img2 img3 :
  only_marked img1 img2 → only_marked img2 img3 → only_marked img1 img3.
Proof.
  intros (Hr & Hc & Hl & H12) (Hr' & Hc' & Hl' & H23).
  split_and!; [congruence..|].
  intros i x Hx. destruct (H12 i x Hx) as [H2|H2].
  - by apply H23.
  - right. by destruct (H23 i (-1) H2).
Qed.

Lemma guarded_trans rows cols img1 img2 e img3 :
  only_marked img1 img2 → guarded rows cols img2 e img3 →
  guarded rows cols img1 e img3.
Proof.
  intros H12 [H23 He]. split; [by eapply only_marked_trans|].
  destruct H12 as (Hr & Hc & _). rewrite <- Hr, <- Hc. done.
Qed.

Lemma wp_guarded_trans {A} rows cols (m : M A) img1 img2 :
  only_marked img1 img2 →
  wp m img2 (λ _ img', only_marked img2 img') (guarded rows cols img2) True →
  wp m img2 (λ _ img', only_marked img1 img') (guarded rows cols img1) True.
Proof.
  intros H12 Hwp. eapply wp_mono; [done| | |done].
  - intros ? img'. by apply only_marked_trans.
  - intros e img'. by apply guarded_trans.
Qed.

Lemma read_At_guarded rows cols r c img :
  0 ≤ r < rows → 0 ≤ c < cols →
  wp (read_At r c) img (λ _ img', img' = img) (guarded rows cols img) True.
Proof.
  intros Hr Hc. unfold wp, read_At, bind, At, load.
  case_decide as Hout.
  - split; [apply only_marked_refl|]. intros _. lia.
  - destruct (data_ img !! _); [done|].
    split; [apply only_marked_refl|done].
Qed.

Lemma write_At_guarded rows cols r c img :
  0 ≤ r < rows → 0 ≤ c < cols →
  wp (write_At r c (-1)) img (λ _ img', only_marked img img')
     (guarded rows cols img) True.
Proof.
  intros Hr Hc. unfold wp, write_At, bind, At, store.
  case_decide as Hout.
  - split; [apply only_marked_refl|]. intros _. lia.
  - case_decide as Hlt; [|split; [apply only_marked_refl|done]].
    split_and!; cbn [rows_ cols_ data_]; [done..|by rewrite length_insert|].
    intros i x Hx.
    destruct (decide (i = Z.to_nat
                (to_size_t (int_add (int_mul r (cols_ img)) c)))) as [->|Hne].
    + right. by apply list_lookup_insert_eq.
    + left. by rewrite list_lookup_insert_ne.
Qed.

Lemma array_get_guarded rows cols a i img :
  wp (array_get a i) img (λ _ img', img' = img) (guarded rows cols img) True.
Proof.
  unfold array_get, wp, ret, throw.
  case_decide; [|split; [apply only_marked_refl|done]].
  destruct (a !! Z.to_nat i); [done|].
  split; [apply only_marked_refl|done].
Qed.

Lemma array_set_guarded rows cols a i v img :
  wp (array_set a i v) img (λ _ img', img' = img) (guarded rows cols img)
     True.
Proof.
  unfold array_set, wp, ret, throw.
  case_decide; [done|]. split; [apply only_marked_refl|done].
Qed.

Lemma CheckNextPixel_guarded fuel rows cols curRow curCol currentPixel
    currentCount img :
  wp (CheckNextPixel fuel rows cols curRow curCol currentPixel currentCount)
     img (λ _ img', only_marked img img') (guarded rows cols img) True.
Proof.
  revert curRow curCol currentCount img.
  induction fuel as [|fuel IH]; intros curRow curCol currentCount img;
    [done|].
  rewrite CheckNextPixel_unfold.
  eapply wp_mono;
    [apply (wp_for_each (λ _ _ img1, only_marked img img1))| |done|done].
  - apply only_marked_refl.
  - intros seen i rest count img1 _ Himg1.
    apply wp_guarded_trans; [done|].
    unfold check_neighbour. case_decide as Hin; [|apply only_marked_refl].
    apply wp_bind.
    eapply wp_mono; [apply (read_At_guarded rows cols); lia| |done|done].
    intros x ? ->. cbn beta.
    case_decide; [|apply only_marked_refl].
    apply wp_bind.
    eapply wp_mono; [apply (write_At_guarded rows cols); lia| |done|done].
    intros ? img2 Himg2. cbn beta.
    apply wp_guarded_trans; [done|]. apply IH.
  - done.
Qed.

Lemma scan_cell_guarded fuel rows cols row col countForPixel img :
  0 ≤ row < rows → 0 ≤ col < cols →
  wp (scan_cell fuel rows cols row col countForPixel) img
     (λ _ img', only_marked img img') (guarded rows cols img) True.
Proof.
  intros Hrow Hcol. unfold scan_cell. apply wp_bind.
  eapply wp_mono; [by apply (read_At_guarded rows cols)| |done|done].
  intros x ? ->. cbn beta.
  case_decide; [apply only_marked_refl|].
  apply wp_bind.
  eapply wp_mono; [by apply (write_At_guarded rows cols)| |done|done].
  intros ? img1 Himg1. cbn beta.
  apply wp_guarded_trans; [done|].
  apply wp_bind.
  eapply wp_mono; [apply CheckNextPixel_guarded| |done|done].
  intros count img2 Himg2. cbn beta.
  apply wp_guarded_trans; [done|].
  apply wp_bind.
  eapply wp_mono; [apply (array_get_guarded rows cols)| |done|done].
  intros old ? ->. cbn beta.
  case_decide; [|apply only_marked_refl].
  eapply wp_mono; [apply (array_set_guarded rows cols)| |done|done].
  intros ? ? ->. apply only_marked_refl.
Qed.

Lemma scan_guarded fuel rows cols img :
  wp (scan fuel rows cols) img
     (λ _ img', only_marked img img') (guarded rows cols img) True.
Proof.
  unfold scan.
  eapply wp_mono;
    [apply (wp_for_each (λ _ _ img1, only_marked img img1))| |done|done].
  - apply only_marked_refl.
  - intros seen row rest countForPixel img1 Hrows Himg1.
    apply wp_guarded_trans; [done|].
    eapply wp_mono;
      [apply (wp_for_each (λ _ _ img2, only_marked img1 img2))| |done|done].
    + apply only_marked_refl.
    + intros seen' col rest' countForPixel' img2 Hcols Himg2.
      apply wp_guarded_trans; [done|].
      assert (row ∈ int_range rows) as Hrow.
      { rewrite Hrows, elem_of_app, elem_of_cons. auto. }
      assert (col ∈ int_range cols) as Hcol.
      { rewrite Hcols, elem_of_app, elem_of_cons. auto. }
      unfold int_range in *. apply elem_of_seqZ in Hrow, Hcol.
      apply scan_cell_guarded; lia.
    + done.
  - done.
Qed.

Lemma FindLargestConnected_guarded fuel rows cols img :
  wp (FindLargestConnected fuel rows cols) img
     (λ _ img', only_marked img img') (guarded rows cols img) True.
Proof.
  unfold FindLargestConnected. apply wp_bind.
  eapply wp_mono; [apply scan_guarded| |done|done].
  intros countForPixel img'. done.
Qed.

Lemma wp_guarded_final {A} rows cols (m : M A) img img' :
  wp m img (λ _ img', only_marked img img') (guarded rows cols img) True →
  final_state (m img) = Some img' → only_marked img img'.
Proof.
  unfold wp, final_state. destruct (m img) as [a img1|e img1|].
  - by intros ? [= <-].
  - by intros [? _] [= <-].
  - done.
Qed.

Lemma wp_guarded_throw {A} rows cols (m : M A) img img' :
  wp m img (λ _ img', only_marked img img') (guarded rows cols img) True →
  rows ≤ rows_ img → cols ≤ cols_ img → m img ≠ Throw OutOfRange img'.
Proof.
  unfold wp. intros Hwp Hrows Hcols Hm. rewrite Hm in Hwp.
  destruct Hwp as [_ Hwp]. by apply Hwp.
Qed.

(** C9. When the [rows] and [cols] handed to the scan are within the
    dimensions of the image, as they are for a grid, neither
    [FindLargestConnected] nor [CheckNextPixel] ever throws OutOfRange,
    whatever the cell values, the start of the traversal and the fuel: every
    call of [At] is made on coordinates that were checked before. *)
Theorem no_out_of_range fuel rows cols img :
  rows ≤ rows_ img → cols ≤ cols_ img →
  (∀ img', FindLargestConnected fuel rows cols img ≠ Throw OutOfRange img')
  ∧ (∀ curRow curCol currentPixel currentCount img',
       CheckNextPixel fuel rows cols curRow curCol currentPixel currentCount
                      img
       ≠ Throw OutOfRange img').
Proof.
  intros Hrows Hcols. split.
  - intros img'.
    apply (wp_guarded_throw rows cols);
      [apply FindLargestConnected_guarded|done..].
  - intros curRow curCol currentPixel currentCount img'.
    apply (wp_guarded_throw rows cols);
      [apply CheckNextPixel_guarded|done..].
Qed.

Lemma no_out_of_range_witness :
  (∀ img', FindLargestConnected 30 5 6 sample_image ≠ Throw OutOfRange img')
  ∧ (∀ curRow curCol currentPixel currentCount img',
       CheckNextPixel 30 5 6 curRow curCol currentPixel currentCount
                      sample_image
       ≠ Throw OutOfRange img').
Proof. apply (no_out_of_range 30 5 6 sample_image); cbn; lia. Defined.

(** C8. Marking is one-way.  From the start to the end of any run of
    [FindLargestConnected] or of [CheckNextPixel], every cell either keeps
    its value or is set to -1, so a cell that holds -1 holds it for good.
    Counting follows marking: a traversal for a value other than -1 counts
    exactly the cells it marks, those that were not marked before it and
    are marked after it; at a marked cell the scan counts nothing and
    changes nothing; at an unmarked cell the count it records is the number
    of cells it marks. *)
Theorem visited_is_one_way :
  (∀ fuel rows cols img img',
     final_state (FindLargestConnected fuel rows cols img) = Some img' →
     only_marked img img')
  ∧ (∀ fuel rows cols curRow curCol currentPixel currentCount img img',
       final_state (CheckNextPixel fuel rows cols curRow curCol currentPixel
                                   currentCount img) = Some img' →
       only_marked img img')
  ∧ (∀ fuel rows cols img cur v count,
       grid rows cols img → in_grid rows cols cur → v ≠ -1 →
       INT_MIN ≤ count →
       count + Z.of_nat (size (cells_of rows cols (data_ img) v)) ≤ INT_MAX →
       (size (cells_of rows cols (data_ img) v) < fuel)%nat →
       ∃ count' img',
         CheckNextPixel fuel rows cols cur.1 cur.2 v count img
         = Done count' img'
         ∧ count' = count + Z.of_nat (size (newly_marked rows cols
                                              (data_ img) (data_ img'))))
  ∧ (∀ fuel rows cols img q countForPixel,
       grid rows cols img → in_grid rows cols q →
       pixel cols (data_ img) q = Some (-1) →
       scan_cell fuel rows cols q.1 q.2 countForPixel img
       = Done countForPixel img)
  ∧ (∀ fuel rows cols img q x old countForPixel,
       grid rows cols img → in_grid rows cols q →
       pixel cols (data_ img) q = Some x → x ≠ -1 → 0 ≤ x →
       countForPixel !! Z.to_nat x = Some old →
       (Z.to_nat (rows * cols) ≤ fuel)%nat →
       ∃ count' img',
         scan_cell fuel rows cols q.1 q.2 countForPixel img
         = Done (if decide (count' > old)
                 then <[Z.to_nat x := count']> countForPixel
                 else countForPixel) img'
         ∧ count' = Z.of_nat (size (newly_marked rows cols
                                      (data_ img) (data_ img')))).
Proof.
  split_and!.
  - intros fuel rows cols img img'.
    apply (wp_guarded_final rows cols), FindLargestConnected_guarded.
  - intros fuel rows cols curRow curCol currentPixel currentCount img img'.
    apply (wp_guarded_final rows cols), CheckNextPixel_guarded.
  - intros fuel rows cols img cur v count Hgrid Hcur Hv Hlo Hhi Hfuel.
    destruct img as [r c data].
    destruct Hgrid as [Hr Hc Hrows Hcols Hlen Hint].
    cbn [rows_ cols_ data_] in *. subst r c.
    destruct (returns_inv _ _ _
                (CheckNextPixel_flood rows cols Hrows Hcols Hint v Hv fuel
                   cur data count
                   ltac:(unfold may_traverse; done)))
      as (count' & img' & Hrun & data' & -> & Hfl & _).
    exists count', (mkImage rows cols data'). split; [done|].
    cbn [data_]. destruct Hfl as [Hm Hcount _ _].
    rewrite (newly_marked_marks rows cols Hrows Hcols Hint v Hv) by done.
    rewrite size_difference
      by by apply (marks_cells_of rows cols Hrows Hcols Hint v Hv).
    pose proof (subseteq_size _ _
      (marks_cells_of rows cols Hrows Hcols Hint v Hv _ _ Hm)). lia.
  - intros fuel rows cols img q countForPixel Hgrid Hq Hpix.
    destruct img as [r c data].
    destruct Hgrid as [Hr Hc Hrows Hcols Hlen Hint].
    cbn [rows_ cols_ data_] in *. subst r c.
    by apply scan_cell_marked.
  - intros fuel rows cols img q x old countForPixel Hgrid Hq Hpix Hx Hx0
           Hold Hfuel.
    destruct img as [r c data].
    destruct Hgrid as [Hr Hc Hrows Hcols Hlen Hint].
    cbn [rows_ cols_ data_] in *. subst r c.
    destruct (scan_cell_unmarked rows cols Hrows Hcols Hint fuel
                countForPixel data q x old Hlen Hq Hpix Hx Hx0 Hold
                Hfuel)
      as (data' & count' & Hrun & Hm & Hcount & _).
    exists count', (mkImage rows cols data'). split; [done|].
    cbn [data_].
    by rewrite (newly_marked_marks rows cols Hrows Hcols Hint x Hx).
Qed.

Lemma visited_is_one_way_witness :
  only_marked sample_image (mkImage 5 6 (replicate 30 (-1)))
  ∧ only_marked (mkImage 1 3 [-1; 7; 7]) (mkImage 1 3 [-1; -1; -1])
  ∧ (∃ count' img',
       CheckNextPixel 3 1 3 0 1 7 1 (mkImage 1 3 [-1; -1; 7])
       = Done count' img'
       ∧ count' = 1 + Z.of_nat (size (newly_marked 1 3 [-1; -1; 7]
                                        (data_ img'))))
  ∧ scan_cell 3 1 3 0 0 countForPixel_init (mkImage 1 3 [-1; 7; 7])
    = Done countForPixel_init (mkImage 1 3 [-1; 7; 7])
  ∧ (∃ count' img',
       scan_cell 3 1 3 0 1 countForPixel_init (mkImage 1 3 [-1; 7; 7])
       = Done (if decide (count' > 0)
               then <[Z.to_nat 7 := count']> countForPixel_init
               else countForPixel_init) img'
       ∧ count' = Z.of_nat (size (newly_marked 1 3 [-1; 7; 7]
                                    (data_ img')))).
Proof.
  destruct visited_is_one_way as (Hscan & Htraversal & Hcount & Hskip & Hseed).
  assert (grid 1 3 (mkImage 1 3 [-1; 7; 7])) as Hgrid
    by (split; cbn; unfold INT_MAX; lia).
  assert (grid 1 3 (mkImage 1 3 [-1; -1; 7])) as Hgrid'
    by (split; cbn; unfold INT_MAX; lia).
  split_and!.
  - apply (Hscan 30%nat 5 6). vm_compute. reflexivity.
  - apply (Htraversal 3%nat 1 3 0 0 7 0). vm_compute. reflexivity.
  - apply (Hcount 3%nat 1 3 (mkImage 1 3 [-1; -1; 7]) (0, 1) 7 1);
      [done|unfold in_grid; cbn; lia|lia|unfold INT_MIN; lia| |].
    + cbn [data_].
      assert (size (cells_of 1 3 [-1; -1; 7] 7) = 1%nat) as ->
        by (vm_compute; reflexivity).
      unfold INT_MAX. lia.
    + cbn [data_].
      assert (size (cells_of 1 3 [-1; -1; 7] 7) = 1%nat) as ->
        by (vm_compute; reflexivity).
      lia.
  - apply (Hskip 3%nat 1 3 (mkImage 1 3 [-1; 7; 7]) (0, 0));
      [done|unfold in_grid; cbn; lia|reflexivity].
  - apply (Hseed 3%nat 1 3 (mkImage 1 3 [-1; 7; 7]) (0, 1) 7 0);
      [done|unfold in_grid; cbn; lia|reflexivity|lia|lia|reflexivity|
       cbn; lia].
Defined.

(** * Further properties of the image and of the scan *)

(** ** Cell access on a constructed image *)

(** X1. On a grid, a write through [At] at a cell of the grid succeeds and
    leaves a grid; a read at the same cell then returns the value written,
    and a read at any other cell of the grid returns what it returned
    before. *)
Theorem write_At_read_At rows cols img r c v :
  grid rows cols img → in_grid rows cols (r, c) →
  ∃ img',
    write_At r c v img = Done tt img'
    ∧ grid rows cols img'
    ∧ read_At r c img' = Done v img'
    ∧ ∀ r' c' x, in_grid rows cols (r', c') → (r', c') ≠ (r, c) →
        read_At r' c' img = Done x img → read_At r' c' img' = Done x img'.
Proof.
  intros Hgrid Hin. destruct img as [rs cs data].
  destruct Hgrid as [Hr Hc Hrows Hcols Hlen Hint].
  cbn [rows_ cols_ data_] in *. subst rs cs.
  exists (mkImage rows cols (<[Z.to_nat (r * cols + c) := v]> data)).
  pose proof (pixel_insert rows cols Hrows Hcols Hint data (r, c)) as Hins.
  cbn [fst snd] in Hins.
  split_and!.
  - by apply write_At_grid.
  - split; cbn [rows_ cols_ data_]; [done..| |done].
    by rewrite length_insert.
  - apply (read_At_grid rows cols Hrows Hcols Hint); [done|].
    rewrite Hins by done. by rewrite decide_True.
  - intros r' c' x Hin' Hne Hread.
    destruct (pixel_is_Some rows cols Hrows Hcols Hint data (r', c') Hlen Hin')
      as [y Hy].
    rewrite (read_At_grid rows cols Hrows Hcols Hint data r' c' y) in Hread
      by done.
    injection Hread as ->.
    apply (read_At_grid rows cols Hrows Hcols Hint); [done|].
    rewrite Hins by done. by rewrite decide_False.
Qed.

Lemma write_At_read_At_witness :
  ∃ img',
    write_At 1 2 9 (mkImage 2 3 [1; 2; 3; 4; 5; 6]) = Done tt img'
    ∧ grid 2 3 img'
    ∧ read_At 1 2 img' = Done 9 img'
    ∧ ∀ r' c' x, in_grid 2 3 (r', c') → (r', c') ≠ (1, 2) →
        read_At r' c' (mkImage 2 3 [1; 2; 3; 4; 5; 6])
        = Done x (mkImage 2 3 [1; 2; 3; 4; 5; 6]) →
        read_At r' c' img' = Done x img'.
Proof.
  apply (write_At_read_At 2 3 (mkImage 2 3 [1; 2; 3; 4; 5; 6]) 1 2 9).
  - split; cbn; unfold INT_MAX; lia.
  - unfold in_grid. cbn. lia.
Defined.

Lemma read_At_outside img row col :
  ¬ (0 ≤ row < rows_ img ∧ 0 ≤ col < cols_ img) →
  read_At row col img = Throw OutOfRange img.
Proof.
  intros Hout. unfold read_At, bind, At. case_decide; [done|lia].
Qed.

(** X2. An image built by the three-argument constructor, from dimensions
    whose product is an [int], is read in row-major order: a read inside
    the dimensions returns the element [row * cols + col] of the data given
    to the constructor, and a read outside throws OutOfRange.  So no read
    of a constructed image indexes outside its vector. *)
Theorem Image3_read_At rows cols initial_data img row col :
  is_int (rows * cols) →
  Image3 rows cols initial_data = Ok img →
  (0 ≤ row < rows ∧ 0 ≤ col < cols →
   ∃ x, initial_data !! Z.to_nat (row * cols + col) = Some x
        ∧ read_At row col img = Done x img)
  ∧ (¬ (0 ≤ row < rows ∧ 0 ≤ col < cols) →
     read_At row col img = Throw OutOfRange img).
Proof.
  intros Hint. unfold Image3, int_mul. cbn [rows_ cols_ data_].
  rewrite (wrap_int_id _ Hint).
  unfold is_int, INT_MIN, INT_MAX in *.
  case_decide as Hlen; [done|]. intros [= <-].
  split.
  - intros [Hrow Hcol].
    assert (0 ≤ rows * cols) by nia.
    rewrite to_size_t_nonneg in Hlen by lia.
    assert (in_grid rows cols (row, col)) as Hin by (unfold in_grid; cbn; lia).
    destruct (pixel_is_Some rows cols ltac:(lia) ltac:(lia)
                ltac:(unfold INT_MAX; lia) initial_data (row, col) Hlen Hin)
      as [x Hx].
    exists x. split; [done|].
    by apply (read_At_grid rows cols ltac:(lia) ltac:(lia)
                ltac:(unfold INT_MAX; lia)).
  - intros Hout. by apply read_At_outside.
Qed.

Lemma Image3_read_At_witness :
  (0 ≤ 1 < 2 ∧ 0 ≤ 0 < 3 →
   ∃ x, [1; 2; 3; 4; 5; 6] !! Z.to_nat (1 * 3 + 0) = Some x
        ∧ read_At 1 0 (mkImage 2 3 [1; 2; 3; 4; 5; 6])
          = Done x (mkImage 2 3 [1; 2; 3; 4; 5; 6]))
  ∧ (¬ (0 ≤ 1 < 2 ∧ 0 ≤ 0 < 3) →
     read_At 1 0 (mkImage 2 3 [1; 2; 3; 4; 5; 6])
     = Throw OutOfRange (mkImage 2 3 [1; 2; 3; 4; 5; 6])).
Proof.
  apply (Image3_read_At 2 3 [1; 2; 3; 4; 5; 6]
           (mkImage 2 3 [1; 2; 3; 4; 5; 6]) 1 0).
  - unfold is_int, INT_MIN, INT_MAX. lia.
  - reflexivity.
Defined.

(** X3. An image built by the two-argument constructor, from dimensions
    whose product is an [int], holds 0 in every cell: a read inside the
    dimensions returns 0. *)
Theorem Image2_read_At rows cols img row col :
  is_int (rows * cols) →
  Image2 rows cols = Ok img →
  0 ≤ row < rows → 0 ≤ col < cols →
  read_At row col img = Done 0 img.
Proof.
  intros Hint Hctor Hrow Hcol.
  assert (0 ≤ rows * cols) by nia.
  unfold is_int, INT_MIN in Hint.
  pose proof (Image2_grid rows cols img ltac:(lia) ltac:(lia) ltac:(lia)
                Hctor) as Hgrid.
  revert Hctor. unfold Image2, int_mul.
  rewrite wrap_int_id by (unfold is_int, INT_MIN; lia).
  rewrite to_size_t_nonneg by (unfold INT_MAX in *; lia).
  case_decide; [done|]. intros [= <-].
  apply (read_At_grid rows cols ltac:(lia) ltac:(lia) ltac:(lia));
    [unfold in_grid; cbn; lia|].
  unfold pixel. cbn [fst snd]. apply lookup_replicate_2. nia.
Qed.

Lemma Image2_read_At_witness :
  read_At 1 2 (mkImage 2 3 (replicate 6 0))
  = Done 0 (mkImage 2 3 (replicate 6 0)).
Proof.
  apply (Image2_read_At 2 3 (mkImage 2 3 (replicate 6 0)) 1 2).
  - unfold is_int, INT_MIN, INT_MAX. lia.
  - reflexivity.
  - lia.
  - lia.
Defined.

(** ** The scan and the dimensions of the image *)

(** X4. Handing [FindLargestConnected] a window of at least one row and one
    column over an image that has no row or no column throws OutOfRange at
    the first cell, and leaves the image as it was. *)
Theorem FindLargestConnected_no_image fuel rows cols img :
  1 ≤ rows → 1 ≤ cols → rows_ img ≤ 0 ∨ cols_ img ≤ 0 →
  FindLargestConnected fuel rows cols img = Throw OutOfRange img.
Proof.
  intros Hrows Hcols Hnone.
  unfold FindLargestConnected, scan, int_range.
  rewrite (seqZ_cons 0 rows) by lia. rewrite (seqZ_cons 0 cols) by lia.
  unfold bind at 1. cbn [for_each]. unfold bind at 1 2.
  unfold scan_cell. unfold bind at 1.
  rewrite read_At_outside by lia. done.
Qed.

Lemma FindLargestConnected_no_image_witness :
  FindLargestConnected 4 2 2 (mkImage 0 0 [])
  = Throw OutOfRange (mkImage 0 0 []).
Proof.
  apply (FindLargestConnected_no_image 4 2 2 (mkImage 0 0 [])); cbn; lia.
Defined.

(** ** The size of the result *)

Lemma region_size_bounds rows cols data seed :
  0 ≤ rows → 0 ≤ cols → rows * cols ≤ INT_MAX →
  Z.of_nat (length data) = rows * cols →
  in_grid rows cols seed →
  1 ≤ region_size rows cols data seed ≤ rows * cols.
Proof.
  intros Hrows Hcols Hint Hlen Hseed.
  destruct (pixel_is_Some rows cols Hrows Hcols Hint data seed Hlen Hseed)
    as [v Hv].
  unfold region_size. rewrite Hv. split.
  - assert (seed ∈ region rows cols data v seed) as Hin.
    { apply region_spec; [done|]. apply connected_refl. }
    assert (size (region rows cols data v seed) ≠ 0%nat); [|lia].
    apply size_non_empty_iff. intros Hempty. rewrite Hempty in Hin.
    by apply not_elem_of_empty in Hin.
  - pose proof (subseteq_size _ _
                  (rounds_in_grid rows cols data v seed Hseed
                     (length (all_cells rows cols)))) as Hle.
    rewrite size_list_to_set in Hle by apply NoDup_all_cells.
    rewrite length_all_cells in Hle. unfold region.
    apply Nat2Z.inj_le in Hle.
    rewrite Nat2Z.inj_mul, !Z2Nat.id in Hle by done.
    by rewrite length_all_cells.
Qed.

Lemma filter_none {A} (P : A → Prop) `{!∀ x, Decision (P x)} (l : list A) :
  (∀ x, x ∈ l → ¬ P x) → filter P l = [].
Proof.
  induction l as [|x l IH]; intros Hall; [done|].
  rewrite filter_cons_False by (apply Hall; by left).
  apply IH. intros y Hy. apply Hall. by right.
Qed.

Lemma largest_unmarked_region_bounds rows cols data :
  0 ≤ rows → 0 ≤ cols → rows * cols ≤ INT_MAX →
  Z.of_nat (length data) = rows * cols →
  0 ≤ largest_unmarked_region rows cols data ≤ rows * cols
  ∧ (largest_unmarked_region rows cols data = 0
     ↔ ∀ q, in_grid rows cols q → pixel cols data q = Some (-1)).
Proof.
  intros Hrows Hcols Hint Hlen. unfold largest_unmarked_region.
  destruct (largest_over_spec rows cols data
              (filter (λ q, pixel cols data q ≠ Some (-1))
                 (all_cells rows cols))) as (H0 & Hall & Hin).
  split_and!; [done| |].
  - destruct Hin as [->|(s & Hs & ->)]; [nia|].
    apply list_elem_of_filter in Hs as [_ Hs%elem_of_all_cells].
    by apply (region_size_bounds rows cols data s).
  - split.
    + intros Hzero q Hq.
      destruct (decide (pixel cols data q = Some (-1))) as [|Hne]; [done|].
      specialize (Hall q). rewrite list_elem_of_filter in Hall.
      rewrite elem_of_all_cells in Hall. specialize (Hall (conj Hne Hq)).
      pose proof (region_size_bounds rows cols data q
                    Hrows Hcols Hint Hlen Hq). lia.
    + intros Hmarked. rewrite filter_none; [done|].
      intros q Hq%elem_of_all_cells Hne. by apply Hne, Hmarked.
Qed.

(** X5. On a grid of pixel values (0..255, or the marker -1), with fuel for
    every cell, the result of [FindLargestConnected] lies between 0 and the
    number of cells, and it is 0 exactly when every cell already holds the
    marker (in particular when the grid has no cell). *)
Theorem FindLargestConnected_bounds rows cols img fuel :
  grid rows cols img →
  Forall pixel_value (data_ img) →
  (Z.to_nat (rows * cols) ≤ fuel)%nat →
  ∃ n img',
    FindLargestConnected fuel rows cols img = Done n img'
    ∧ 0 ≤ n ≤ rows * cols
    ∧ (n = 0 ↔ ∀ q, in_grid rows cols q →
                     pixel cols (data_ img) q = Some (-1)).
Proof.
  intros Hgrid Hvalues Hfuel. destruct img as [rs cs data].
  destruct Hgrid as [Hr Hc Hrows Hcols Hlen Hint].
  cbn [rows_ cols_ data_] in *. subst rs cs.
  eexists _, _. split; [by apply FindLargestConnected_unmarked|].
  by apply largest_unmarked_region_bounds.
Qed.

Lemma FindLargestConnected_bounds_witness :
  ∃ n img',
    FindLargestConnected 4 2 2 (mkImage 2 2 [3; -1; 3; 3]) = Done n img'
    ∧ 0 ≤ n ≤ 2 * 2
    ∧ (n = 0 ↔ ∀ q, in_grid 2 2 q → pixel 2 [3; -1; 3; 3] q = Some (-1)).
Proof.
  apply (FindLargestConnected_bounds 2 2 (mkImage 2 2 [3; -1; 3; 3]) 4).
  - split; cbn; unfold INT_MAX; lia.
  - cbn. unfold pixel_value.
    repeat (apply Forall_cons_2; [lia|]). apply Forall_nil_2.
  - cbn. lia.
Defined.

(** X6. The scan consumes the grid: after a run on a grid of pixel values
    every cell holds the marker, so a second run of [FindLargestConnected]
    on the same image returns 0.  A caller that needs the result twice must
    scan a copy, as [main] does. *)
Theorem FindLargestConnected_twice rows cols img fuel :
  grid rows cols img →
  Forall pixel_value (data_ img) →
  (Z.to_nat (rows * cols) ≤ fuel)%nat →
  ∃ n img',
    FindLargestConnected fuel rows cols img = Done n img'
    ∧ (∀ q, in_grid rows cols q → pixel cols (data_ img') q = Some (-1))
    ∧ FindLargestConnected fuel rows cols img' = Done 0 img'.
Proof.
  intros Hgrid Hvalues Hfuel. destruct img as [rs cs data].
  destruct Hgrid as [Hr Hc Hrows Hcols Hlen Hint].
  cbn [rows_ cols_ data_] in *. subst rs cs.
  assert (∀ q, in_grid rows cols q →
            pixel cols (replicate (length data) (-1)) q = Some (-1))
    as Hmarked.
  { intros q Hq. unfold pixel. apply lookup_replicate_2.
    pose proof (index_bounds rows cols Hrows Hcols Hint q Hq). lia. }
  eexists _, _. split; [by apply FindLargestConnected_unmarked|].
  cbn [data_]. split; [done|].
  rewrite FindLargestConnected_unmarked; [|done..| | |done].
  - rewrite length_replicate. f_equal.
    apply largest_unmarked_region_bounds; [done..| |done].
    by rewrite length_replicate.
  - by rewrite length_replicate.
  - apply Forall_replicate. by left.
Qed.

Lemma FindLargestConnected_twice_witness :
  ∃ n img',
    FindLargestConnected 4 2 2 (mkImage 2 2 [3; 3; 0; 3]) = Done n img'
    ∧ (∀ q, in_grid 2 2 q → pixel 2 (data_ img') q = Some (-1))
    ∧ FindLargestConnected 4 2 2 img' = Done 0 img'.
Proof.
  apply (FindLargestConnected_twice 2 2 (mkImage 2 2 [3; 3; 0; 3]) 4).
  - split; cbn; unfold INT_MAX; lia.
  - cbn. unfold pixel_value.
    repeat (apply Forall_cons_2; [lia|]). apply Forall_nil_2.
  - cbn. lia.
Defined.

(** X7. What the result means, without the reference flood fill: on a grid
    whose cells lie in 0..255, the result is at least the size of every
    4-connected region of equal-valued cells, and a grid with a cell has a
    region of exactly that size. *)
Theorem FindLargestConnected_is_maximum rows cols img fuel :
  grid rows cols img →
  Forall (λ x, 0 ≤ x ≤ 255) (data_ img) →
  (Z.to_nat (rows * cols) ≤ fuel)%nat →
  ∃ n img',
    FindLargestConnected fuel rows cols img = Done n img'
    ∧ (∀ q D, in_grid rows cols q → is_region rows cols (data_ img) q D →
              Z.of_nat (size D) ≤ n)
    ∧ (0 < rows * cols →
       ∃ q D, in_grid rows cols q ∧ is_region rows cols (data_ img) q D
              ∧ n = Z.of_nat (size D)).
Proof.
  intros Hgrid Hvalues Hfuel. destruct img as [rs cs data].
  destruct Hgrid as [Hr Hc Hrows Hcols Hlen Hint].
  cbn [rows_ cols_ data_] in *. subst rs cs.
  eexists _, _. split.
  { apply FindLargestConnected_unmarked; [done..| |done].
    eapply Forall_impl; [done|]. intros x Hx. by right. }
  rewrite largest_unmarked_region_all by done.
  destruct (largest_region_spec rows cols data Hrows Hcols Hint Hlen)
    as [Hall Hin].
  split; [done|]. intros Hcells.
  destruct Hin as [Hzero|Hin]; [|done].
  assert (in_grid rows cols (0, 0)) as H00 by (unfold in_grid; cbn; nia).
  pose proof (region_size_bounds rows cols data (0, 0)
                Hrows Hcols Hint Hlen H00) as [Hlo _].
  destruct (pixel_is_Some rows cols Hrows Hcols Hint data (0, 0) Hlen H00)
    as [v Hv].
  specialize (Hall (0, 0) (region rows cols data v (0, 0)) H00
                (region_is_region rows cols data v (0, 0) H00 Hv)).
  unfold region_size in Hlo. rewrite Hv in Hlo. lia.
Qed.

Lemma FindLargestConnected_is_maximum_witness :
  ∃ n img',
    FindLargestConnected 4 2 2 (mkImage 2 2 [3; 3; 0; 3]) = Done n img'
    ∧ (∀ q D, in_grid 2 2 q → is_region 2 2 [3; 3; 0; 3] q D →
              Z.of_nat (size D) ≤ n)
    ∧ (0 < 2 * 2 →
       ∃ q D, in_grid 2 2 q ∧ is_region 2 2 [3; 3; 0; 3] q D
              ∧ n = Z.of_nat (size D)).
Proof.
  apply (FindLargestConnected_is_maximum 2 2 (mkImage 2 2 [3; 3; 0; 3]) 4).
  - split; cbn; unfold INT_MAX; lia.
  - cbn. repeat (apply Forall_cons_2; [lia|]). apply Forall_nil_2.
  - cbn. lia.
Defined.

(** ** The traversal never fails on a grid *)

Section traversal_total.
Context (rows cols : Z).
Context (Hrows : 0 ≤ rows) (Hcols : 0 ≤ cols).
Context (Hint : rows * cols ≤ INT_MAX).

Lemma kept_refl data : kept rows cols data data.
Proof. by split. Qed.

Lemma kept_trans data1 data2 data3 :
  kept rows cols data1 data2 → kept rows cols data2 data3 →
  kept rows cols data1 data3.
Proof.
  intros [Hl12 H12] [Hl23 H23]. split; [congruence|].
  intros q Hq Hpix. by apply H23, H12.
Qed.

Lemma kept_insert data q :
  Z.of_nat (length data) = rows * cols → in_grid rows cols q →
  kept rows cols data (<[Z.to_nat (q.1 * cols + q.2) := -1]> data).
Proof.
  intros Hlen Hq. split; [by rewrite length_insert|].
  intros y Hy Hpix. rewrite (pixel_insert rows cols Hrows Hcols Hint) by done.
  by case_decide.
Qed.

Lemma keeps_trans {A} (m : M A) data data1 :
  kept rows cols data data1 →
  keeps rows cols data1 m (mkImage rows cols data1) →
  keeps rows cols data m (mkImage rows cols data1).
Proof.
  intros Hkept Hm. eapply wp_mono; [exact Hm| |done|done].
  intros a img' (data' & -> & Hkept'). exists data'.
  split; [done|]. by eapply kept_trans.
Qed.

Lemma check_neighbour_keeps fuel curRow curCol currentPixel i count data :
  (∀ curRow curCol count data,
     Z.of_nat (length data) = rows * cols →
     keeps rows cols data
       (CheckNextPixel fuel rows cols curRow curCol currentPixel count)
       (mkImage rows cols data)) →
  Z.of_nat (length data) = rows * cols →
  keeps rows cols data
    (check_neighbour fuel rows cols curRow curCol currentPixel i count)
    (mkImage rows cols data).
Proof.
  intros IH Hlen. unfold keeps, check_neighbour.
  set (nextRow := int_add curRow (dr !!! Z.to_nat i)).
  set (nextCol := int_add curCol (dc !!! Z.to_nat i)).
  case_decide as Hin;
    [|apply wp_ret; exists data; split; [done|apply kept_refl]].
  assert (in_grid rows cols (nextRow, nextCol)) as Hn
    by (unfold in_grid; cbn; lia).
  destruct (pixel_is_Some rows cols Hrows Hcols Hint data _ Hlen Hn)
    as [x Hx].
  apply wp_bind. eapply wp_done.
  { by apply (read_At_grid rows cols Hrows Hcols Hint data nextRow nextCol x). }
  case_decide;
    [|apply wp_ret; exists data; split; [done|apply kept_refl]].
  apply wp_bind. eapply wp_done.
  { by apply (write_At_grid rows cols Hrows Hcols Hint data nextRow nextCol). }
  pose proof (kept_insert data (nextRow, nextCol) Hlen Hn) as Hkept.
  cbn [fst snd] in Hkept.
  apply (keeps_trans _ _ _ Hkept). apply IH.
  by rewrite length_insert.
Qed.

Lemma CheckNextPixel_keeps fuel curRow curCol currentPixel count data :
  Z.of_nat (length data) = rows * cols →
  keeps rows cols data
    (CheckNextPixel fuel rows cols curRow curCol currentPixel count)
    (mkImage rows cols data).
Proof.
  revert curRow curCol count data.
  induction fuel as [|fuel IH]; intros curRow curCol count data Hlen; [done|].
  rewrite CheckNextPixel_unfold. unfold keeps.
  eapply (wp_mono _ _ _ _ (λ _ _, False) _ True);
    [apply (wp_for_each
              (λ _ _ img1, ∃ data1, img1 = mkImage rows cols data1
                                    ∧ kept rows cols data data1))
    | |done|done].
  - exists data. split; [done|apply kept_refl].
  - intros seen i rest count1 img1 _ (data1 & -> & Hkept).
    apply (keeps_trans _ _ _ Hkept).
    apply check_neighbour_keeps; [done|].
    destruct Hkept as [-> _]. done.
  - done.
Qed.
End traversal_total.

(** X8. On a grid, [CheckNextPixel] never fails, whatever the start
    coordinates, the value looked for, the count and the cell values: no
    run ends in a throw of any kind, and a run that returns leaves a grid of
    the same dimensions in which every cell that held -1 still holds it. *)
Theorem CheckNextPixel_never_throws rows cols img fuel curRow curCol
    currentPixel currentCount :
  grid rows cols img →
  (∀ e img', CheckNextPixel fuel rows cols curRow curCol currentPixel
                            currentCount img ≠ Throw e img')
  ∧ (∀ n img', CheckNextPixel fuel rows cols curRow curCol currentPixel
                              currentCount img = Done n img' →
       grid rows cols img'
       ∧ ∀ q, in_grid rows cols q → pixel cols (data_ img) q = Some (-1) →
              pixel cols (data_ img') q = Some (-1)).
Proof.
  intros Hgrid. destruct img as [rs cs data].
  destruct Hgrid as [Hr Hc Hrows Hcols Hlen Hint].
  cbn [rows_ cols_ data_] in *. subst rs cs.
  pose proof (CheckNextPixel_keeps rows cols Hrows Hcols Hint fuel curRow
                curCol currentPixel currentCount data Hlen) as Hkeeps.
  unfold keeps, wp in Hkeeps. split.
  - intros e img' Hrun. by rewrite Hrun in Hkeeps.
  - intros n img' Hrun. rewrite Hrun in Hkeeps.
    destruct Hkeeps as (data' & -> & Hlen' & Hkept).
    split; [|done]. split; cbn [rows_ cols_ data_]; [done..| |done].
    by rewrite Hlen'.
Qed.

Lemma CheckNextPixel_never_throws_witness :
  (∀ e img', CheckNextPixel 30 5 6 (-3) 40 4 0 sample_image ≠ Throw e img')
  ∧ (∀ n img', CheckNextPixel 30 5 6 (-3) 40 4 0 sample_image = Done n img' →
       grid 5 6 img'
       ∧ ∀ q, in_grid 5 6 q → pixel 6 (data_ sample_image) q = Some (-1) →
              pixel 6 (data_ img') q = Some (-1)).
Proof.
  apply (CheckNextPixel_never_throws 5 6 sample_image 30 (-3) 40 4 0).
  split; cbn; unfold INT_MAX; lia.
Defined.

(** ** The traversal for the marker itself *)

Lemma for_each_out_of_fuel {X S} (J : S → Image → Prop) (l : list X)
    (body : X → S → M S) x s img :
  x ∈ l → J s img →
  (∀ y s img, J s img → wp (body y s) img J (λ _ _, False) True) →
  (∀ s img, J s img → body x s img = OutOfFuel) →
  for_each l body s img = OutOfFuel.
Proof.
  intros Hx HJ Hbody Hout. revert s img HJ.
  induction l as [|y l IH]; intros s img HJ; [by apply elem_of_nil in Hx|].
  cbn [for_each]. unfold bind.
  apply elem_of_cons in Hx as [<-|Hx]; [by rewrite Hout|].
  specialize (Hbody y s img HJ). unfold wp in Hbody.
  destruct (body y s img) as [s' img'|e img'|]; [by apply IH|done|done].
Qed.

Section marker_traversal.
Context (rows cols : Z).
Context (Hrows : 0 ≤ rows) (Hcols : 0 ≤ cols).
Context (Hint : rows * cols ≤ INT_MAX).

Lemma CheckNextPixel_marker_out_of_fuel fuel p q count data :
  Z.of_nat (length data) = rows * cols →
  in_grid rows cols p → in_grid rows cols q → q ∈ neighbours p →
  pixel cols data p = Some (-1) → pixel cols data q = Some (-1) →
  CheckNextPixel fuel rows cols p.1 p.2 (-1) count (mkImage rows cols data)
  = OutOfFuel.
Proof.
  revert p q count data.
  induction fuel as [|fuel IH]; intros p q count data Hlen Hp Hq Hadj Hpp Hpq;
    [done|].
  rewrite CheckNextPixel_unfold.
  apply elem_of_neighbours in Hadj as (i & Hi & ->).
  apply (for_each_out_of_fuel
           (λ _ img1, ∃ data1, img1 = mkImage rows cols data1
                                ∧ kept rows cols data data1) _ _ i);
    [done|exists data; split; [done|by apply kept_refl]| |].
  - intros j count1 img1 (data1 & -> & Hkept).
    assert (Z.of_nat (length data1) = rows * cols) as Hlen1
      by (destruct Hkept as [-> _]; done).
    eapply (wp_mono _ _ _ _ (λ _ _, False) _ True);
      [apply (check_neighbour_keeps rows cols Hrows Hcols Hint);
         [intros; by apply CheckNextPixel_keeps|done]
      | |done|done].
    intros count2 img2 (data2 & -> & Hkept2). exists data2.
    split; [done|]. by eapply kept_trans.
  - intros count1 img1 (data1 & -> & Hlen1' & Hkept).
    assert (Z.of_nat (length data1) = rows * cols) as Hlen1 by by rewrite Hlen1'.
    unfold check_neighbour.
    destruct (neighbour_int rows cols Hrows Hcols Hint 0 ltac:(lia) p i Hp Hi)
      as [-> ->].
    set (n := neighbour p i) in *.
    rewrite decide_True by (unfold in_grid in Hq; lia).
    unfold bind at 1.
    rewrite (read_At_grid rows cols Hrows Hcols Hint data1 n.1 n.2 (-1));
      [|by destruct n|destruct n; by apply Hkept].
    rewrite decide_True by done. unfold bind at 1.
    rewrite (write_At_grid rows cols Hrows Hcols Hint data1 n.1 n.2);
      [|done|by destruct n].
    pose proof (kept_insert rows cols Hrows Hcols Hint data1 n Hlen1 Hq)
      as [_ Hkept1].
    apply (IH n p); [by rewrite length_insert|done|done| | |].
    + apply neighbours_sym, elem_of_neighbours. by exists i.
    + by apply Hkept1, Hkept.
    + by apply Hkept1, Hkept.
Qed.
End marker_traversal.

(** X9. [CheckNextPixel] must not be asked to look for the marker: on a
    grid with two adjacent cells that both hold -1, a traversal for the
    value -1 started at one of them does not return, whatever the fuel (the
    two cells keep finding each other).  The scan never makes such a call,
    because it skips the cells that hold -1. *)
Theorem CheckNextPixel_marker_never_returns rows cols img p q fuel count :
  grid rows cols img →
  in_grid rows cols p → in_grid rows cols q → q ∈ neighbours p →
  pixel cols (data_ img) p = Some (-1) →
  pixel cols (data_ img) q = Some (-1) →
  CheckNextPixel fuel rows cols p.1 p.2 (-1) count img = OutOfFuel.
Proof.
  intros Hgrid. destruct img as [rs cs data].
  destruct Hgrid as [Hr Hc Hrows Hcols Hlen Hint].
  cbn [rows_ cols_ data_] in *. subst rs cs.
  by apply CheckNextPixel_marker_out_of_fuel.
Qed.

Lemma CheckNextPixel_marker_never_returns_witness :
  CheckNextPixel 1000 1 3 (0, 0).1 (0, 0).2 (-1) 1 (mkImage 1 3 [-1; -1; 5])
  = OutOfFuel.
Proof.
  apply (CheckNextPixel_marker_never_returns 1 3 (mkImage 1 3 [-1; -1; 5])
           (0, 0) (0, 1) 1000 1).
  - split; cbn; unfold INT_MAX; lia.
  - unfold in_grid. cbn. lia.
  - unfold in_grid. cbn. lia.
  - unfold neighbours. cbn. rewrite !elem_of_cons. auto.
  - reflexivity.
  - reflexivity.
Defined.

(** ** A cell value outside 0..255 *)

Lemma first_failing {A} (P : A → Prop) (l : list A) :
  (∀ x, Decision (P x)) →
  (∃ x, x ∈ l ∧ ¬ P x) →
  ∃ l1 x l2, l = l1 ++ x :: l2 ∧ ¬ P x ∧ ∀ y, y ∈ l1 → P y.
Proof.
  intros Hdec. induction l as [|a l IH]; intros (x & Hx & HPx).
  { by apply elem_of_nil in Hx. }
  destruct (Hdec a) as [HPa|HPa].
  - apply elem_of_cons in Hx as [->|Hx]; [done|].
    destruct IH as (l1 & y & l2 & -> & HPy & Hl1); [by exists x|].
    exists (a :: l1), y, l2. split_and!; [done..|].
    intros z [->|Hz]%elem_of_cons; [done|by apply Hl1].
  - exists [], a, l. split_and!; [done..|].
    intros z Hz. by apply elem_of_nil in Hz.
Qed.

Section invalid_value.
Context (rows cols : Z).
Context (Hrows : 0 ≤ rows) (Hcols : 0 ≤ cols).
Context (Hint : rows * cols ≤ INT_MAX).
Context (g : list Z) (Hg : Z.of_nat (length g) = rows * cols).

(** At a cell whose value is neither the marker nor within 0..255, the body
    of the scan marks the region of the cell and then indexes
    [countForPixel] outside its 256 entries. *)
Lemma scan_cell_invalid fuel countForPixel data q x :
  Z.of_nat (length data) = rows * cols →
  in_grid rows cols q → pixel cols data q = Some x →
  ¬ pixel_value x → length countForPixel = 256%nat →
  (Z.to_nat (rows * cols) ≤ fuel)%nat →
  ∃ img',
    scan_cell fuel rows cols q.1 q.2 countForPixel (mkImage rows cols data)
    = Throw UndefinedBehavior img'.
Proof.
  intros Hlen Hq Hx Hbad Hlen256 Hfuel. unfold pixel_value in Hbad.
  assert (x ≠ -1) as Hx1 by lia.
  pose proof (size_cells_of_insert rows cols Hrows Hcols Hint x Hx1
                data q Hlen Hq Hx) as Hsize.
  pose proof (size_cells_of_le rows cols data x Hrows Hcols) as Hle.
  destruct (returns_inv _ _ _
              (CheckNextPixel_flood rows cols Hrows Hcols Hint x Hx1 fuel q
                 (<[Z.to_nat (q.1 * cols + q.2) := -1]> data) 1
                 ltac:(unfold may_traverse, INT_MIN;
                       split_and!;
                         [by rewrite length_insert|done|lia|lia|lia])))
    as (count' & img' & Hrun & _).
  exists img'.
  unfold scan_cell, bind at 1.
  rewrite (read_At_grid rows cols Hrows Hcols Hint data q.1 q.2 x)
    by by destruct q.
  rewrite decide_False by done. unfold bind at 1.
  rewrite (write_At_grid rows cols Hrows Hcols Hint data q.1 q.2)
    by (done || by destruct q).
  unfold bind at 1. rewrite Hrun. unfold bind, array_get.
  case_decide as Hneg; [|done].
  rewrite lookup_ge_None_2 by lia. done.
Qed.

(** The step of the scan at a cell of valid value, with the cells it
    changes: they held the value of the cell, which was not the marker. *)
Lemma scan_cell_scanned_at fuel seen countForPixel data q :
  (Z.to_nat (rows * cols) ≤ fuel)%nat →
  in_grid rows cols q →
  (∀ x, pixel cols g q = Some x → pixel_value x) →
  scanned rows cols g seen countForPixel data →
  returns (scan_cell fuel rows cols q.1 q.2 countForPixel)
    (mkImage rows cols data)
    (λ countForPixel' img', ∃ data',
       img' = mkImage rows cols data'
       ∧ scanned rows cols g (seen ++ [q]) countForPixel' data'
       ∧ ∀ y, in_grid rows cols y →
           pixel cols data' y = pixel cols data y
           ∨ (pixel cols data y = pixel cols data q
              ∧ pixel cols data q ≠ Some (-1))).
Proof.
  intros Hfuel Hq Hvalid Hsc.
  assert (Z.of_nat (length data) = rows * cols) as Hlen.
  { by rewrite (scanned_length _ _ _ _ _ _ Hsc). }
  destruct (pixel_is_Some rows cols Hrows Hcols Hint data q Hlen Hq)
    as [x Hx].
  destruct (decide (x = -1)) as [->|Hx1].
  { eapply returns_done;
      [by apply (scan_cell_marked rows cols Hrows Hcols Hint)|].
    exists data. split_and!; [done| |by left].
    destruct Hsc. split; try done.
    intros y [Hy | ->%list_elem_of_singleton]%elem_of_app Hin; auto. }
  assert (pixel cols g q = Some x) as Hgq.
  { destruct (scanned_pixels _ _ _ _ _ _ Hsc q Hq); congruence. }
  assert (0 ≤ x ≤ 255) as Hrange.
  { destruct (Hvalid x Hgq); [done|lia]. }
  pose proof (scanned_counters _ _ _ _ _ _ Hsc) as Hlen256.
  destruct (lookup_lt_is_Some_2 countForPixel (Z.to_nat x)) as [old Hold];
    [lia|].
  destruct (scan_cell_unmarked rows cols Hrows Hcols Hint fuel
              countForPixel data q x old Hlen Hq Hx Hx1
              ltac:(lia) Hold Hfuel)
    as (data' & count' & Hrun & Hm & Hcount & Hreg).
  eapply returns_done; [done|]. exists data'. split_and!; [done| |].
  - apply lookup_lt_Some in Hold as Hlt.
    case_decide as Hgt.
    + eapply (scanned_region rows cols Hrows Hcols Hint g Hg);
        [done..| | | |].
      * by rewrite length_insert.
      * intros i c Hc. destruct (decide (i = Z.to_nat x)) as [->|Hne].
        -- exists count'. rewrite list_lookup_insert_eq by lia.
           split; [done|]. simplify_eq. lia.
        -- exists c. by rewrite list_lookup_insert_ne.
      * exists count'. rewrite list_lookup_insert_eq by lia.
        split; [done|lia].
      * intros i c' Hc'. destruct (decide (i = Z.to_nat x)) as [->|Hne].
        -- rewrite list_lookup_insert_eq in Hc' by lia. right. congruence.
        -- rewrite list_lookup_insert_ne in Hc' by done. by left.
    + eapply (scanned_region rows cols Hrows Hcols Hint g Hg);
        [done..| | |].
      * intros i c Hc. exists c. split; [done|lia].
      * exists old. split; [done|lia].
      * intros i c' Hc'. by left.
  - intros y Hy. destruct Hm as [_ Hm].
    destruct (Hm y Hy) as [Heq|[Hyx _]]; [by left|].
    right. rewrite Hx. split; [done|congruence].
Qed.

Lemma scan_invalid fuel :
  (∃ q x, in_grid rows cols q ∧ pixel cols g q = Some x ∧ ¬ pixel_value x) →
  (Z.to_nat (rows * cols) ≤ fuel)%nat →
  ∃ img', scan fuel rows cols (mkImage rows cols g)
          = Throw UndefinedBehavior img'.
Proof.
  intros (q0 & x0 & Hq0 & Hx0 & Hbad0) Hfuel.
  destruct (first_failing
              (λ q, ∀ x, pixel cols g q = Some x → pixel_value x)
              (all_cells rows cols))
    as (l1 & s & l2 & Hsplit & Hs & Hl1).
  { intros q. destruct (pixel cols g q) as [x|].
    - destruct (decide (x = -1 ∨ 0 ≤ x ≤ 255)) as [Hok|Hno].
      + left. by intros ? [= <-].
      + right. intros Hall. by apply Hno, Hall.
    - left. done. }
  { exists q0. split; [by apply elem_of_all_cells|].
    intros Hall. by apply Hbad0, Hall. }
  assert (in_grid rows cols s) as Hsin.
  { apply elem_of_all_cells. rewrite Hsplit, elem_of_app, elem_of_cons.
    auto. }
  destruct (pixel_is_Some rows cols Hrows Hcols Hint g s Hg Hsin) as [x Hgs].
  assert (¬ pixel_value x) as Hbad.
  { intros Hok. apply Hs. intros y Hy.
    assert (y = x) as -> by congruence. done. }
  unfold scan.
  rewrite (for_each_nested rows cols
             (λ row col s, scan_cell fuel rows cols row col s)).
  rewrite Hsplit, for_each_app.
  assert (returns
            (for_each l1 (λ q c, scan_cell fuel rows cols q.1 q.2 c)
                      countForPixel_init)
            (mkImage rows cols g)
            (λ countForPixel img', ∃ data,
               img' = mkImage rows cols data
               ∧ scanned rows cols g l1 countForPixel data
               ∧ ∀ y, in_grid rows cols y → pixel cols data y = Some (-1) →
                      ∃ w, pixel cols g y = Some w ∧ pixel_value w))
    as Hpre.
  { apply (returns_for_each
       (λ seen countForPixel img', ∃ data,
          img' = mkImage rows cols data
          ∧ scanned rows cols g seen countForPixel data
          ∧ ∀ y, in_grid rows cols y → pixel cols data y = Some (-1) →
                 ∃ w, pixel cols g y = Some w ∧ pixel_value w)).
    - exists g. split_and!; [done| |].
      + split; try done.
        * intros q _. by left.
        * intros q q' w Hq Hmarked Hgq. congruence.
        * intros q w D Hq Hmarked Hgq. congruence.
        * intros i c [-> _]%lookup_replicate. by left.
        * intros q Hq. by apply elem_of_nil in Hq.
      + intros y Hy Hpix. exists (-1). split; [done|by left].
    - intros seen q rest countForPixel img Hl (data & -> & Hsc & Hvalid).
      assert (q ∈ l1) as Hql1.
      { rewrite Hl, elem_of_app, elem_of_cons. auto. }
      assert (in_grid rows cols q) as Hq.
      { apply elem_of_all_cells. rewrite Hsplit, elem_of_app. auto. }
      eapply returns_mono;
        [by apply scan_cell_scanned_at; [|done|apply Hl1|]|].
      intros countForPixel' img' (data' & -> & Hsc' & Hchanged).
      exists data'. split_and!; [done..|].
      intros y Hy Hpix.
      destruct (Hchanged y Hy) as [Heq|[Heq Hne]].
      + apply Hvalid; [done|congruence].
      + destruct (pixel_is_Some rows cols Hrows Hcols Hint g y Hg Hy)
          as [w Hw].
        exists w. split; [done|].
        destruct (scanned_pixels _ _ _ _ _ _ Hsc y Hy) as [Hy'|Hy'];
          [|congruence].
        destruct (scanned_pixels _ _ _ _ _ _ Hsc q Hq) as [Hq'|Hq'];
          [|congruence].
        apply (Hl1 q Hql1). congruence. }
  destruct (returns_inv _ _ _ Hpre)
    as (countForPixel & img1 & Hprefix & data & -> & Hsc & Hvalid).
  assert (pixel cols data s = Some x) as Hds.
  { destruct (scanned_pixels _ _ _ _ _ _ Hsc s Hsin) as [|Hmarked];
      [congruence|].
    destruct (Hvalid s Hsin Hmarked) as (w & Hw & Hok). congruence. }
  destruct (scan_cell_invalid fuel countForPixel data s x) as [img' Hthrow];
    [by rewrite (scanned_length _ _ _ _ _ _ Hsc)|done|done|done|
     by apply (scanned_counters _ _ _ _ _ _ Hsc)|done|].
  exists img'. unfold bind at 1. rewrite Hprefix.
  cbn [for_each]. unfold bind at 1. by rewrite Hthrow.
Qed.
End invalid_value.

(** X10. The counters of [FindLargestConnected] are indexed by the cell
    value without a check: on a grid that holds, anywhere, a value that is
    neither within 0..255 nor the marker -1, a run with fuel for every cell
    ends by indexing [countForPixel] outside its 256 entries, which is
    undefined behaviour and no exception. *)
Theorem FindLargestConnected_invalid_value rows cols img fuel :
  grid rows cols img →
  (∃ q x, in_grid rows cols q ∧ pixel cols (data_ img) q = Some x
          ∧ ¬ pixel_value x) →
  (Z.to_nat (rows * cols) ≤ fuel)%nat →
  ∃ img', FindLargestConnected fuel rows cols img
          = Throw UndefinedBehavior img'.
Proof.
  intros Hgrid Hbad Hfuel. destruct img as [rs cs data].
  destruct Hgrid as [Hr Hc Hrows Hcols Hlen Hint].
  cbn [rows_ cols_ data_] in *. subst rs cs.
  destruct (scan_invalid rows cols Hrows Hcols Hint data Hlen fuel Hbad Hfuel)
    as [img' Hscan].
  exists img'. unfold FindLargestConnected, bind. by rewrite Hscan.
Qed.

Lemma FindLargestConnected_invalid_value_witness :
  ∃ img', FindLargestConnected 4 2 2 (mkImage 2 2 [7; 7; 256; 7])
          = Throw UndefinedBehavior img'.
Proof.
  apply (FindLargestConnected_invalid_value 2 2
           (mkImage 2 2 [7; 7; 256; 7]) 4).
  - split; cbn; unfold INT_MAX; lia.
  - exists (1, 0), 256. split_and!.
    + unfold in_grid. cbn. lia.
    + reflexivity.
    + unfold pixel_value. lia.
  - cbn. lia.
Defined.

(** ** Only the four axis-aligned neighbours connect *)

Lemma region_size_alone rows cols data seed :
  in_grid rows cols seed → is_Some (pixel cols data seed) →
  (∀ q, in_grid rows cols q → q ∈ neighbours seed →
        pixel cols data seed ≠ pixel cols data q) →
  region_size rows cols data seed = 1.
Proof.
  intros Hseed [v Hv] Halone.
  rewrite (region_size_is_region rows cols data seed {[seed]});
    [by rewrite size_singleton|done|].
  exists v. split; [done|]. intros q. rewrite elem_of_singleton. split.
  - intros ->. apply connected_refl.
  - intros Hconn. induction Hconn as [|q q' _ IH Hadj Hq' Hpix]; [done|].
    subst q. destruct (Halone q' Hq' Hadj). congruence.
Qed.

(** X11. Cells connect through their four axis-aligned neighbours only: on
    a grid with at least one cell, whose cells lie in 0..255, in which no
    cell has the value of its upper, lower, left or right neighbour,
    [FindLargestConnected] returns 1, whatever the diagonal neighbours
    hold (a checkerboard, for instance). *)
Theorem FindLargestConnected_no_equal_neighbours rows cols img fuel :
  grid rows cols img → 1 ≤ rows → 1 ≤ cols →
  Forall (λ x, 0 ≤ x ≤ 255) (data_ img) →
  (∀ p q, in_grid rows cols p → in_grid rows cols q → q ∈ neighbours p →
          pixel cols (data_ img) p ≠ pixel cols (data_ img) q) →
  (Z.to_nat (rows * cols) ≤ fuel)%nat →
  FindLargestConnected fuel rows cols img
  = Done 1 (mkImage rows cols (replicate (length (data_ img)) (-1))).
Proof.
  intros Hgrid Hrows1 Hcols1 Hvalues Halone Hfuel. destruct img as [rs cs data].
  destruct Hgrid as [Hr Hc Hrows Hcols Hlen Hint].
  cbn [rows_ cols_ data_] in *. subst rs cs.
  rewrite FindLargestConnected_unmarked; [|done..| |done].
  2: { eapply Forall_impl; [done|]. intros x Hx. by right. }
  f_equal. rewrite largest_unmarked_region_all by done.
  assert (∀ s, in_grid rows cols s → region_size rows cols data s = 1)
    as Hone.
  { intros s Hs. apply region_size_alone; [done| |by auto].
    by apply (pixel_is_Some rows cols Hrows Hcols Hint). }
  destruct (largest_over_spec rows cols data (all_cells rows cols))
    as (_ & Hall & Hin).
  fold (largest_region rows cols data) in *.
  assert (in_grid rows cols (0, 0)) as H00 by (unfold in_grid; cbn; lia).
  specialize (Hall (0, 0)). rewrite elem_of_all_cells, Hone in Hall by done.
  specialize (Hall H00).
  destruct Hin as [Hin|(s & Hs%elem_of_all_cells & Hin)]; [lia|].
  by rewrite Hin, Hone.
Qed.

Lemma FindLargestConnected_no_equal_neighbours_witness :
  FindLargestConnected 6 2 3 (mkImage 2 3 [0; 1; 0; 1; 0; 1])
  = Done 1 (mkImage 2 3 (replicate 6 (-1))).
Proof.
  apply (FindLargestConnected_no_equal_neighbours 2 3
           (mkImage 2 3 [0; 1; 0; 1; 0; 1]) 6).
  - split; cbn; unfold INT_MAX; lia.
  - lia.
  - lia.
  - cbn. repeat (apply Forall_cons_2; [lia|]). apply Forall_nil_2.
  - intros [r c] [r' c'] [Hr Hc] [Hr' Hc'] Hadj. cbn in *.
    unfold neighbours in Hadj. cbn [fst snd] in Hadj.
    rewrite !elem_of_cons, elem_of_nil in Hadj.
    assert (r = 0 ∨ r = 1) as [-> | ->] by lia;
      assert (c = 0 ∨ c = 1 ∨ c = 2) as [-> | [-> | ->]] by lia;
      destruct Hadj as [Heq|[Heq|[Heq|[Heq|[]]]]];
      injection Heq as -> ->; (lia || (vm_compute; discriminate)).
  - cbn. lia.
Defined.

(** ** Only the equality of cell values matters *)

Section recoding.
Context (rows cols : Z) (data : list Z) (f : Z → Z).
Context (Hinj : ∀ x y, x ∈ data → y ∈ data → f x = f y → x = y).

Lemma pixel_fmap q : pixel cols (f <$> data) q = f <$> pixel cols data q.
Proof. unfold pixel. apply list_lookup_fmap. Qed.

Lemma pixel_fmap_inv q v :
  v ∈ data → pixel cols (f <$> data) q = Some (f v) →
  pixel cols data q = Some v.
Proof.
  intros Hv. rewrite pixel_fmap.
  destruct (pixel cols data q) as [w|] eqn:Hw; [|done].
  intros [= Hfw]. f_equal. apply Hinj; [|done..].
  apply list_elem_of_lookup. by eexists.
Qed.

Lemma connected_fmap v p q :
  v ∈ data →
  connected rows cols (f <$> data) (f v) p q
  ↔ connected rows cols data v p q.
Proof.
  intros Hv. split; intros Hconn;
    induction Hconn as [|q q' _ IH Hadj Hq' Hpix];
    try apply connected_refl.
  - eapply connected_step; [done..|]. by apply pixel_fmap_inv.
  - eapply connected_step; [done..|]. by rewrite pixel_fmap, Hpix.
Qed.

Lemma region_size_fmap seed :
  in_grid rows cols seed →
  region_size rows cols (f <$> data) seed = region_size rows cols data seed.
Proof.
  intros Hseed. unfold region_size at 2.
  destruct (pixel cols data seed) as [v|] eqn:Hv.
  - apply region_size_is_region; [done|].
    exists (f v). split; [by rewrite pixel_fmap, Hv|].
    intros q. rewrite region_spec by done. symmetry.
    apply connected_fmap. apply list_elem_of_lookup. by eexists.
  - unfold region_size. by rewrite pixel_fmap, Hv.
Qed.

Lemma largest_region_fmap :
  largest_region rows cols (f <$> data) = largest_region rows cols data.
Proof.
  unfold largest_region, largest_over.
  assert (∀ s, s ∈ all_cells rows cols → in_grid rows cols s) as Hin
    by (intros s; apply elem_of_all_cells).
  induction (all_cells rows cols) as [|s l IH]; [done|].
  cbn [fmap list_fmap foldr]. rewrite region_size_fmap by (apply Hin; by left).
  f_equal. apply IH. intros q Hq. apply Hin. by right.
Qed.
End recoding.

(** X12. The result depends on which cells hold equal values, not on the
    values themselves: recoding the cells of a grid by a function that is
    injective on the values present, from values of 0..255 to values of
    0..255, does not change the result of [FindLargestConnected]. *)
Theorem FindLargestConnected_recoded rows cols data f fuel :
  grid rows cols (mkImage rows cols data) →
  Forall (λ x, 0 ≤ x ≤ 255) data →
  Forall (λ x, 0 ≤ f x ≤ 255) data →
  (∀ x y, x ∈ data → y ∈ data → f x = f y → x = y) →
  (Z.to_nat (rows * cols) ≤ fuel)%nat →
  ∃ n img',
    FindLargestConnected fuel rows cols (mkImage rows cols data)
    = Done n img'
    ∧ FindLargestConnected fuel rows cols (mkImage rows cols (f <$> data))
      = Done n img'.
Proof.
  intros [_ _ Hrows Hcols Hlen Hint] Hvalues Hrecoded Hinj Hfuel.
  cbn [data_] in Hlen.
  eexists _, _. split.
  - apply FindLargestConnected_unmarked; [done..| |done].
    eapply Forall_impl; [exact Hvalues|]. intros x Hx. by right.
  - rewrite FindLargestConnected_unmarked; [|done..| | |done].
    + rewrite !largest_unmarked_region_all;
        [|done..|by rewrite length_fmap|by apply Forall_fmap].
      by rewrite largest_region_fmap, length_fmap.
    + by rewrite length_fmap.
    + apply Forall_fmap. eapply Forall_impl; [exact Hrecoded|].
      intros x Hx. by right.
Qed.

Lemma FindLargestConnected_recoded_witness :
  ∃ n img',
    FindLargestConnected 4 2 2 (mkImage 2 2 [3; 3; 0; 3]) = Done n img'
    ∧ FindLargestConnected 4 2 2
        (mkImage 2 2 ((λ x, 255 - x) <$> [3; 3; 0; 3]))
      = Done n img'.
Proof.
  apply (FindLargestConnected_recoded 2 2 [3; 3; 0; 3] (λ x, 255 - x) 4).
  - split; cbn; unfold INT_MAX; lia.
  - repeat (apply Forall_cons_2; [lia|]). apply Forall_nil_2.
  - repeat (apply Forall_cons_2; [lia|]). apply Forall_nil_2.
  - intros x y _ _. lia.
  - cbn. lia.
Defined.

(** ** The region marked at one seed *)

(** X13. The flood fill is exact.  On a grid, at a cell that holds a value
    [x] of 0..255, the body of the scan (mark the cell, run
    [CheckNextPixel] from it, update the counter of [x]) returns, and
    afterwards a cell of the grid holds -1 if it is connected to the seed
    through 4-adjacent cells of value [x], and holds what it held before
    otherwise. *)
Theorem scan_cell_marks_region rows cols img q x countForPixel fuel :
  grid rows cols img → in_grid rows cols q →
  pixel cols (data_ img) q = Some x → 0 ≤ x ≤ 255 →
  length countForPixel = 256%nat →
  (Z.to_nat (rows * cols) ≤ fuel)%nat →
  ∃ countForPixel' img',
    scan_cell fuel rows cols q.1 q.2 countForPixel img
    = Done countForPixel' img'
    ∧ grid rows cols img'
    ∧ ∀ y, in_grid rows cols y →
        (connected rows cols (data_ img) x q y →
         pixel cols (data_ img') y = Some (-1))
        ∧ (¬ connected rows cols (data_ img) x q y →
           pixel cols (data_ img') y = pixel cols (data_ img) y).
Proof.
  intros Hgrid Hq Hx Hrange Hlen256 Hfuel. destruct img as [rs cs data].
  destruct Hgrid as [Hr Hc Hrows Hcols Hlen Hint].
  cbn [rows_ cols_ data_] in *. subst rs cs.
  destruct (lookup_lt_is_Some_2 countForPixel (Z.to_nat x)) as [old Hold];
    [lia|].
  destruct (scan_cell_unmarked rows cols Hrows Hcols Hint fuel
              countForPixel data q x old Hlen Hq Hx
              ltac:(lia) ltac:(lia) Hold Hfuel)
    as (data' & count' & Hrun & [Hlen' Hm] & _ & Hreg).
  eexists _, _. split; [done|]. cbn [data_]. split.
  { split; cbn [rows_ cols_ data_]; [done..| |done]. by rewrite Hlen'. }
  intros y Hy. specialize (Hreg y).
  rewrite elem_of_difference, !elem_of_cells_of in Hreg.
  destruct (Hm y Hy) as [Heq|[Hyx Hy']]; split.
  - intros Hconn. apply Hreg in Hconn as [[_ Hyx] Hnot].
    destruct Hnot. split; [done|]. by rewrite Heq.
  - done.
  - done.
  - intros Hnot. destruct Hnot. apply Hreg. split; [done|].
    intros [_ ?]. assert (x = -1) by congruence. lia.
Qed.

Lemma scan_cell_marks_region_witness :
  ∃ countForPixel' img',
    scan_cell 6 2 3 (0, 0).1 (0, 0).2 countForPixel_init
              (mkImage 2 3 [7; 7; 0; 0; 7; 0])
    = Done countForPixel' img'
    ∧ grid 2 3 img'
    ∧ ∀ y, in_grid 2 3 y →
        (connected 2 3 [7; 7; 0; 0; 7; 0] 7 (0, 0) y →
         pixel 3 (data_ img') y = Some (-1))
        ∧ (¬ connected 2 3 [7; 7; 0; 0; 7; 0] 7 (0, 0) y →
           pixel 3 (data_ img') y = pixel 3 [7; 7; 0; 0; 7; 0] y).
Proof.
  apply (scan_cell_marks_region 2 3 (mkImage 2 3 [7; 7; 0; 0; 7; 0])
           (0, 0) 7 countForPixel_init 6).
  - split; cbn; unfold INT_MAX; lia.
  - unfold in_grid. cbn. lia.
  - reflexivity.
  - lia.
  - reflexivity.
  - cbn. lia.
Defined.

Example scan_cell_marks_region_run :
  scan_cell 6 2 3 0 0 countForPixel_init (mkImage 2 3 [7; 7; 0; 0; 7; 0])
  = Done (<[7%nat := 3]> countForPixel_init)
         (mkImage 2 3 [-1; -1; 0; 0; -1; 0]).
Proof. vm_compute. reflexivity. Qed.

Example invalid_values_run :
  FindLargestConnected 4 2 2 (mkImage 2 2 [7; 7; 256; 7])
  = Throw UndefinedBehavior (mkImage 2 2 [-1; -1; -1; -1])
  ∧ FindLargestConnected 4 2 2 (mkImage 2 2 [7; -5; -5; 7])
    = Throw UndefinedBehavior (mkImage 2 2 [-1; -1; -5; 7]).
Proof. vm_compute. done. Qed.
